(** * Verification of the diff renderer (renderDiff and its helpers)

    A shallow embedding of [parseDiffLine], [highlightLine], [replaceTabs],
    [renderIntraLineDiff] and [renderDiff], and the proofs of the properties
    the specification states about them.

    JavaScript strings are sequences of UTF-16 code units: a code unit is a
    number of [N], a string a list of them.  The rendered text interleaves
    code units with terminal styling sequences; these are kept as atomic
    symbols so that "removing the markers" is a function. *)

From Stdlib Require Import String Ascii List NArith Arith Bool Lia.
Import ListNotations.

Set Implicit Arguments.

(** ** Strings *)

Definition char := N.
Definition str := list char.

(** The code units of an ASCII literal, to write examples legibly. *)
Definition lit (s : string) : str := map N_of_ascii (list_ascii_of_string s).

Fixpoint str_eqb (a b : str) : bool :=
  match a, b with
  | [], [] => true
  | x :: a', y :: b' => N.eqb x y && str_eqb a' b'
  | _, _ => false
  end.

(** JavaScript truthiness of a string: the empty string is falsy. *)
Definition truthy (s : str) : bool :=
  match s with [] => false | _ :: _ => true end.

Module Chr.
Definition tab : char := 9%N.
Definition lf : char := 10%N.
Definition cr : char := 13%N.
Definition space : char := 32%N.
Definition plus : char := 43%N.
Definition minus : char := 45%N.
Definition backslash : char := 92%N.
Definition t : char := 116%N.
End Chr.

(** ** Character classes of the regular expressions *)

Section Classes.
Local Open Scope N_scope.

Definition inRange (lo hi c : char) : bool := (N.leb lo c && N.leb c hi)%bool.

(** [\s]: the WhiteSpace and LineTerminator code points of ECMAScript. *)
Definition isWhitespace (c : char) : bool :=
  (inRange 9 13 c                (* TAB LF VT FF CR *)
   || N.eqb c 32                 (* SPACE *)
   || N.eqb c 160                (* NO-BREAK SPACE *)
   || N.eqb c 5760               (* U+1680 *)
   || inRange 8192 8202 c        (* U+2000 .. U+200A *)
   || inRange 8232 8233 c        (* U+2028 U+2029 *)
   || N.eqb c 8239               (* U+202F *)
   || N.eqb c 8287               (* U+205F *)
   || N.eqb c 12288              (* U+3000 *)
   || N.eqb c 65279)%bool.       (* U+FEFF *)

(** [\d] *)
Definition isDigit (c : char) : bool := inRange 48 57 c.

Definition isLineTerminator (c : char) : bool :=
  (N.eqb c 10 || N.eqb c 13 || inRange 8232 8233 c)%bool.

(** [.] without the [s] flag: anything but a line terminator. *)
Definition isDot (c : char) : bool := negb (isLineTerminator c).

(** [[+-\s]]: outside unicode mode a class escape as a range bound makes the
    class the union of both bounds and the hyphen. *)
Definition isPrefixChar (c : char) : bool :=
  (N.eqb c Chr.plus || N.eqb c Chr.minus || isWhitespace c)%bool.

End Classes.

(** ** A backtracking matcher for anchored sequences of classes

    The patterns of this program are sequences of single-character classes,
    each taken once or under a greedy star, anchored at both ends.  The
    matcher returns the text each atom consumed; a star first tries the
    longest run and gives characters back one at a time. *)

Inductive atom : Type :=
| One (cls : char -> bool)
| Many (cls : char -> bool).

Fixpoint greedy (A : Type) (cls : char -> bool) (k : str -> option A) (s : str)
  : option (str * A) :=
  match s with
  | c :: s' =>
      if cls c then
        match greedy cls k s' with
        | Some (m, r) => Some (c :: m, r)
        | None => option_map (pair []) (k s)
        end
      else option_map (pair []) (k s)
  | [] => option_map (pair []) (k [])
  end.

Fixpoint matchAtoms (re : list atom) : str -> option (list str) :=
  match re with
  | [] => fun s => match s with [] => Some [] | _ :: _ => None end
  | One cls :: re' => fun s =>
      match s with
      | c :: s' => if cls c then option_map (cons [c]) (matchAtoms re' s') else None
      | [] => None
      end
  | Many cls :: re' => fun s =>
      option_map (fun mr => fst mr :: snd mr) (greedy cls (matchAtoms re') s)
  end.

(** ** parseDiffLine *)

Record ParsedLine : Type := mkParsed {
  prefix : str;
  lineNum : str;
  content : str
}.

(** The line pattern: one character of the prefix class (group 1), a greedy
    run of whitespace and then a greedy run of digits (together group 2), one
    whitespace character outside any group, and a greedy run of anything but
    line terminators up to the end of the text (group 3). *)
Definition diffLineRe : list atom :=
  [One isPrefixChar; Many isWhitespace; Many isDigit; One isWhitespace; Many isDot].

Definition parseDiffLine (line : str) : option ParsedLine :=
  match matchAtoms diffLineRe line with
  | Some [g1; ws; ds; _; g3] =>
      Some {| prefix := g1; lineNum := ws ++ ds; content := g3 |}
  | _ => None
  end.

(** ** replaceTabs

    A global replace, scanning from the left, of every backslash followed by
    the letter t by three spaces. *)

Fixpoint replaceTabs (text : str) : str :=
  match text with
  | [] => []
  | a :: rest =>
      match rest with
      | b :: rest' =>
          if (N.eqb a Chr.backslash && N.eqb b Chr.t)%bool
          then Chr.space :: Chr.space :: Chr.space :: replaceTabs rest'
          else a :: replaceTabs rest
      | [] => [a]
      end
  end.


(** ** split and join *)

(** [diffText.split] at every line feed; the empty text gives one empty line. *)
Fixpoint split (text : str) : list str :=
  match text with
  | [] => [[]]
  | c :: text' =>
      if N.eqb c Chr.lf then [] :: split text'
      else match split text' with
           | l :: ls => (c :: l) :: ls
           | [] => [[c]]
           end
  end.

(** ** Rendered text *)

(** A rendered string carries, between its characters, the terminal styling
    sequences the theme and the syntax highlighter put there.  A styling
    sequence is one symbol, with the parameters of the escape sequence; the
    texts of the input are plain and hold none. *)
Inductive sym : Type :=
| Ch (c : char)
| Esc (params : list N).

Definition out := list sym.

Definition plain (s : str) : out := map Ch s.

(** What is left of a rendered string once every styling sequence is removed. *)
Fixpoint visible (o : out) : str :=
  match o with
  | [] => []
  | Ch c :: o' => c :: visible o'
  | Esc _ :: o' => visible o'
  end.

(** [result.join] with a separator. *)
Fixpoint join (sep : out) (l : list out) : out :=
  match l with
  | [] => []
  | x :: rest =>
      match rest with
      | [] => x
      | _ :: _ => x ++ sep ++ join sep rest
      end
  end.

(** ** The collaborators

    The word-level diff of the diff package and the theme module are imported
    by the renderer and are not part of it: they are interfaces here. *)

Inductive ThemeColor : Type := toolDiffContext | toolDiffRemoved | toolDiffAdded.

(** A part of a word-level diff: its text and the two flags of the package. *)
Record Change : Type := mkChange {
  value : str;
  added : bool;
  removed : bool
}.

Class DiffLib : Type := {
  diffWords : str -> str -> list Change
}.

Class Theme : Type := {
  theme_fg : ThemeColor -> out -> out;
  theme_inverse : out -> out;
  highlightCode : str -> str -> list out;
  getLanguageFromPath : str -> option str
}.

Record RenderDiffOptions : Type := mkOptions {
  filePath : option str
}.

(** The objects the renderer collects for a run of removed or added lines. *)
Module Entry.
Record t : Type := mk { lineNum : str; content : str }.
End Entry.

(** The leading run of whitespace of a text, as the anchored greedy pattern
    of [renderIntraLineDiff] captures it. *)
Fixpoint leadingWs (value : str) : str :=
  match value with
  | c :: value' => if isWhitespace c then c :: leadingWs value' else []
  | [] => []
  end.

Section Renderer.
Context {D : DiffLib} {T : Theme}.

(** ** highlightLine *)

Definition highlightLine (content : str) (lang : option str) : out :=
  match lang with
  | None => plain content
  | Some l =>
      if negb (truthy l) then plain content
      else match highlightCode content l with
           | first :: _ => first
           | [] => plain content
           end
  end.

(** ** renderIntraLineDiff *)

Record IntraState : Type := mkIntra {
  removedLine : out;
  addedLine : out;
  isFirstRemoved : bool;
  isFirstAdded : bool
}.

(** One side of the loop body: the part's text [value0] is appended to the
    line [line0] of that side, [isFirst] being the side's flag. *)
Definition appendChanged (value0 : str) (line0 : out) (isFirst : bool)
  : out * bool :=
  let '(value1, line1, isFirst1) :=
    if isFirst then
      let leading := leadingWs value0 in
      (skipn (length leading) value0, line0 ++ plain leading, false)
    else (value0, line0, isFirst) in
  let line2 :=
    if truthy value1 then line1 ++ theme_inverse (plain value1) else line1 in
  (line2, isFirst1).

Definition intraStep (st : IntraState) (part : Change) : IntraState :=
  if removed part then
    let '(line, flag) := appendChanged (value part) (removedLine st) (isFirstRemoved st) in
    {| removedLine := line; addedLine := addedLine st;
       isFirstRemoved := flag; isFirstAdded := isFirstAdded st |}
  else if added part then
    let '(line, flag) := appendChanged (value part) (addedLine st) (isFirstAdded st) in
    {| removedLine := removedLine st; addedLine := line;
       isFirstRemoved := isFirstRemoved st; isFirstAdded := flag |}
  else
    {| removedLine := removedLine st ++ plain (value part);
       addedLine := addedLine st ++ plain (value part);
       isFirstRemoved := isFirstRemoved st; isFirstAdded := isFirstAdded st |}.

Definition intraInit : IntraState :=
  {| removedLine := []; addedLine := []; isFirstRemoved := true; isFirstAdded := true |}.

(** The loop over the parts of a word diff. *)
Definition renderParts (wordDiff : list Change) : IntraState :=
  fold_left intraStep wordDiff intraInit.

Definition renderIntraLineDiff (oldContent newContent : str) : out * out :=
  let wordDiff := diffWords oldContent newContent in
  let st := renderParts wordDiff in
  (removedLine st, addedLine st).

(** ** renderDiff *)

(** The two inner loops: from the cursor [i], whose remaining lines are
    [rest], collect the lines that parse with the prefix [sign]; stop at the
    end of the lines or at the first line that does not. *)
Fixpoint collectRun (sign : str) (rest : list str) (i : nat) (acc : list Entry.t)
  : nat * list Entry.t :=
  match rest with
  | [] => (i, acc)
  | l :: rest' =>
      match parseDiffLine l with
      | None => (i, acc)
      | Some p =>
          if negb (str_eqb (prefix p) sign) then (i, acc)
          else collectRun sign rest' (S i)
                 (acc ++ [Entry.mk (lineNum p) (content p)])
      end
  end.

Definition minusSign : str := [Chr.minus].
Definition plusSign : str := [Chr.plus].

(** A line of a block, of a standalone added line or of a context line: the
    coloured prefix, a space and the highlighted content. *)
Definition renderLine (color : ThemeColor) (sign : str) (lang : option str)
  (num text : str) : out :=
  let content := replaceTabs text in
  let highlighted := highlightLine content lang in
  theme_fg color (plain (sign ++ num)) ++ [Ch Chr.space] ++ highlighted.

(** What the renderer pushes for a removed run and the added run after it. *)
Definition renderBlock (lang : option str) (removedLines addedLines : list Entry.t)
  (result : list out) : list out :=
  if (length removedLines =? 1) && (length addedLines =? 1) then
    let removed := nth 0 removedLines (Entry.mk [] []) in
    let added := nth 0 addedLines (Entry.mk [] []) in
    let '(removedLine, addedLine) :=
      renderIntraLineDiff (replaceTabs (Entry.content removed))
                          (replaceTabs (Entry.content added)) in
    let result1 :=
      result ++ [theme_fg toolDiffRemoved
                   (plain (minusSign ++ Entry.lineNum removed ++ [Chr.space]) ++ removedLine)] in
    result1 ++ [theme_fg toolDiffAdded
                  (plain (plusSign ++ Entry.lineNum added ++ [Chr.space]) ++ addedLine)]
  else
    let result1 :=
      fold_left (fun res removed =>
                   res ++ [renderLine toolDiffRemoved minusSign lang
                             (Entry.lineNum removed) (Entry.content removed)])
                removedLines result in
    fold_left (fun res added =>
                 res ++ [renderLine toolDiffAdded plusSign lang
                           (Entry.lineNum added) (Entry.content added)])
              addedLines result1.

(** The body of the outer loop at the cursor [i], where [line] is the line
    under the cursor: the new cursor and the new result. *)
Definition iteration (lang : option str) (lines : list str) (i : nat) (line : str)
  (result : list out) : nat * list out :=
  match parseDiffLine line with
  | None => (S i, result ++ [theme_fg toolDiffContext (plain line)])
  | Some parsed =>
      if str_eqb (prefix parsed) minusSign then
        let '(i1, removedLines) := collectRun minusSign (skipn i lines) i [] in
        let '(i2, addedLines) := collectRun plusSign (skipn i1 lines) i1 [] in
        (i2, renderBlock lang removedLines addedLines result)
      else if str_eqb (prefix parsed) plusSign then
        (S i, result ++ [renderLine toolDiffAdded plusSign lang
                           (lineNum parsed) (content parsed)])
      else
        (S i, result ++ [renderLine toolDiffContext [Chr.space] lang
                           (lineNum parsed) (content parsed)])
  end.

(** The outer loop.  It leaves when the cursor is past the last line; [fuel]
    bounds the number of iterations, and [None] means it ran out. *)
Fixpoint renderLoop (lang : option str) (lines : list str) (fuel i : nat)
  (result : list out) : option (list out) :=
  match nth_error lines i with
  | None => Some result
  | Some line =>
      match fuel with
      | O => None
      | S fuel' =>
          let '(i', result') := iteration lang lines i line result in
          renderLoop lang lines fuel' i' result'
      end
  end.

Definition resolveLang (options : RenderDiffOptions) : option str :=
  match filePath options with
  | None => None
  | Some path => if truthy path then getLanguageFromPath path else None
  end.

Definition renderLines (lang : option str) (lines : list str) : option (list out) :=
  renderLoop lang lines (length lines) 0 [].

Definition renderDiff (diffText : str) (options : RenderDiffOptions) : option out :=
  let lines := split diffText in
  let lang := resolveLang options in
  option_map (join [Ch Chr.lf]) (renderLines lang lines).

End Renderer.

(** ** A theme of escape sequences

    Modelled from the spec: the theme module is not part of the sources.  The
    spec describes its functions as wrapping a text in markers that can be
    stripped again: each function brackets its text between an opening and a
    closing sequence.  The highlighter of this theme leaves the text as it is
    and no path has a language. *)
Definition colorCode (c : ThemeColor) : N :=
  match c with
  | toolDiffContext => 90
  | toolDiffRemoved => 31
  | toolDiffAdded => 32
  end.

Definition escTheme : Theme := {|
  theme_fg := fun c text => Esc [colorCode c] :: text ++ [Esc [39%N]];
  theme_inverse := fun text => Esc [7%N] :: text ++ [Esc [27%N]];
  highlightCode := fun content _ => [plain content];
  getLanguageFromPath := fun _ => None
|}.

(** A word diff that answers with fixed parts, for examples. *)
Definition fixedDiff (parts : list Change) : DiffLib :=
  {| diffWords := fun _ _ => parts |}.

(** The word diff that reports the old text removed and the new text added. *)
Definition wholeDiff : DiffLib :=
  {| diffWords := fun o n => [mkChange o false true; mkChange n true false] |}.

Definition noOptions : RenderDiffOptions := {| filePath := None |}.

(** A word diff of "x =   old value;" against "x =  new;". *)
Definition exampleDiff : DiffLib :=
  fixedDiff [mkChange (lit "x = ") false false;
             mkChange (lit "  old ") false true;
             mkChange (lit " new") true false;
             mkChange (lit "value") false true;
             mkChange (lit ";") false false].

(** * Notions used to state the properties *)

(** An occurrence of the escape: a backslash followed by the letter t. *)
Definition tabEscape : str := [Chr.backslash; Chr.t].

Fixpoint hasTabEscape (s : str) : bool :=
  match s with
  | [] => false
  | a :: rest =>
      match rest with
      | b :: _ => (N.eqb a Chr.backslash && N.eqb b Chr.t) || hasTabEscape rest
      | [] => false
      end
  end.


(** The kind of a part, in the order the loop of [renderIntraLineDiff] tests
    the two flags. *)
Inductive PartKind : Type := Unchanged | RemovedOnly | AddedOnly.

Definition kindOf (p : Change) : PartKind :=
  if removed p then RemovedOnly else if added p then AddedOnly else Unchanged.

(** The two texts a word diff stands for. *)
Definition oldText (parts : list Change) : str :=
  concat (map value
    (filter (fun p => match kindOf p with AddedOnly => false | _ => true end) parts)).

Definition newText (parts : list Change) : str :=
  concat (map value
    (filter (fun p => match kindOf p with RemovedOnly => false | _ => true end) parts)).

(** The two sides of an intra-line rendering. *)
Inductive Side : Type := OldSide | NewSide.

Definition changedKind (side : Side) : PartKind :=
  match side with OldSide => RemovedOnly | NewSide => AddedOnly end.

Definition onSide (side : Side) (p : Change) : bool :=
  match side, kindOf p with
  | OldSide, RemovedOnly => true
  | NewSide, AddedOnly => true
  | _, _ => false
  end.

Definition isUnchanged (p : Change) : bool :=
  match kindOf p with Unchanged => true | _ => false end.

Definition lineOf (side : Side) (st : IntraState) : out :=
  match side with OldSide => removedLine st | NewSide => addedLine st end.

Definition flagOf (side : Side) (st : IntraState) : bool :=
  match side with OldSide => isFirstRemoved st | NewSide => isFirstAdded st end.

Section Notions.
Context {D : DiffLib} {T : Theme}.

(** A text under the inversion marker; nothing for the empty text. *)
Definition highlighted (v : str) : out :=
  if truthy v then theme_inverse (plain v) else [].

(** What the unchanged parts contribute to either line. *)
Definition sharedText (parts : list Change) : out :=
  concat (map (fun p => if isUnchanged p then plain (value p) else []) parts).

(** What parts contribute to the line of [side] when each differing part of
    that side is highlighted in full. *)
Definition fullText (side : Side) (parts : list Change) : out :=
  concat (map (fun p =>
                 if isUnchanged p then plain (value p)
                 else if onSide side p then highlighted (value p)
                 else []) parts).

(** The lines of a block in push-free form. *)
Definition intraLines (removed added : Entry.t) : list out :=
  let '(removedLine, addedLine) :=
    renderIntraLineDiff (replaceTabs (Entry.content removed))
                        (replaceTabs (Entry.content added)) in
  [theme_fg toolDiffRemoved
     (plain (minusSign ++ Entry.lineNum removed ++ [Chr.space]) ++ removedLine);
   theme_fg toolDiffAdded
     (plain (plusSign ++ Entry.lineNum added ++ [Chr.space]) ++ addedLine)].

Definition removedBlockLine (lang : option str) (e : Entry.t) : out :=
  renderLine toolDiffRemoved minusSign lang (Entry.lineNum e) (Entry.content e).

Definition addedBlockLine (lang : option str) (e : Entry.t) : out :=
  renderLine toolDiffAdded plusSign lang (Entry.lineNum e) (Entry.content e).

Definition blockLines (lang : option str) (removedLines addedLines : list Entry.t)
  : list out :=
  map (removedBlockLine lang) removedLines ++ map (addedBlockLine lang) addedLines.

End Notions.


(** The inversion of a theme only adds markers. *)
Definition inverseIsMarkup (T : Theme) : Prop :=
  forall text, visible (theme_inverse text) = visible text.

(** The text an atom may consume. *)
Definition atomAccepts (a : atom) (m : str) : Prop :=
  match a with
  | One cls => exists c, m = [c] /\ cls c = true
  | Many cls => forallb cls m = true
  end.

(** Whether a line parses with a given prefix, and the entry the renderer
    collects for a line. *)
Definition hasSign (sign : str) (line : str) : bool :=
  match parseDiffLine line with
  | Some p => str_eqb (prefix p) sign
  | None => false
  end.

Definition entryOf (line : str) : Entry.t :=
  match parseDiffLine line with
  | Some p => Entry.mk (lineNum p) (content p)
  | None => Entry.mk [] []
  end.

(** The number of leading lines that parse with a given prefix. *)
Fixpoint runLength (sign : str) (rest : list str) : nat :=
  match rest with
  | [] => 0
  | l :: rest' => if hasSign sign l then S (runLength sign rest') else 0
  end.

(** A run of the outer loop from the cursor [i] with the result so far, as
    the chain of its iterations: each one starts at a line, moves the cursor
    forward, and consumes the lines it moved over; the chain ends when the
    cursor is the number of lines.  The segments consumed are listed. *)
Inductive Pass {D : DiffLib} {T : Theme} (lang : option str) (lines : list str)
  : nat -> list out -> list (list str) -> list out -> Prop :=
| Pass_end (result : list out) :
    Pass lang lines (length lines) result [] result
| Pass_step (i i' : nat) (line : str) (result result' : list out)
    (segs : list (list str)) (final : list out) :
    nth_error lines i = Some line ->
    iteration lang lines i line result = (i', result') ->
    i < i' ->
    Pass lang lines i' result' segs final ->
    Pass lang lines i result (firstn (i' - i) (skipn i lines) :: segs) final.

(** ** The line pattern without backtracking

    What the pattern amounts to once the choices of the matcher are resolved:
    after the prefix character the whitespace run and the digit run are taken
    whole when a whitespace character and a text without line terminators
    follow the digits; failing that the last character of the whitespace run
    becomes the separator and everything after the run is the content. *)
Fixpoint leadingDigits (s : str) : str :=
  match s with
  | c :: s' => if isDigit c then c :: leadingDigits s' else []
  | [] => []
  end.

Definition parseDirect (line : str) : option ParsedLine :=
  match line with
  | [] => None
  | c :: s =>
      if isPrefixChar c then
        let ws := leadingWs s in
        let s1 := skipn (length ws) s in
        let ds := leadingDigits s1 in
        let fallback :=
          if truthy ws && forallb isDot s1
          then Some {| prefix := [c]; lineNum := removelast ws; content := s1 |}
          else None in
        match skipn (length ds) s1 with
        | sep :: rest =>
            if isWhitespace sep && forallb isDot rest
            then Some {| prefix := [c]; lineNum := ws ++ ds; content := rest |}
            else fallback
        | [] => fallback
        end
      else None
  end.

(** ** The outer loop seen from the lines that are left

    An iteration only looks at the lines from the cursor on.  [stepFrom]
    gives, for these lines, how far the iteration moves the cursor and which
    lines it pushes; [Renders] is the run of the loop over them. *)
Section FromTheCursor.
Context {D : DiffLib} {T : Theme}.

(** What the renderer pushes for a line that is not a removed line. *)
Definition renderSingle (lang : option str) (line : str) : out :=
  match parseDiffLine line with
  | None => theme_fg toolDiffContext (plain line)
  | Some parsed =>
      if str_eqb (prefix parsed) plusSign
      then renderLine toolDiffAdded plusSign lang (lineNum parsed) (content parsed)
      else renderLine toolDiffContext [Chr.space] lang (lineNum parsed) (content parsed)
  end.

Definition stepFrom (lang : option str) (suffix : list str) : nat * list out :=
  match suffix with
  | [] => (0, [])
  | line :: _ =>
      if hasSign minusSign line then
        let r := runLength minusSign suffix in
        let a := runLength plusSign (skipn r suffix) in
        (r + a,
         renderBlock lang (map entryOf (firstn r suffix))
           (map entryOf (firstn a (skipn r suffix))) [])
      else (1, [renderSingle lang line])
  end.

Inductive Renders (lang : option str) : list str -> list out -> Prop :=
| Renders_end : Renders lang [] []
| Renders_step (suffix : list str) (outs : list out) :
    suffix <> [] ->
    Renders lang (skipn (fst (stepFrom lang suffix)) suffix) outs ->
    Renders lang suffix (snd (stepFrom lang suffix) ++ outs).

End FromTheCursor.

(** ** The visible text of a rendering *)

(** A parsed line with its marker and separator written as the renderer
    writes them and its content after the tab substitution; a raw line as it
    is. *)
Definition normalizeLine (line : str) : str :=
  match parseDiffLine line with
  | None => line
  | Some p =>
      (if str_eqb (prefix p) minusSign then minusSign
       else if str_eqb (prefix p) plusSign then plusSign
       else [Chr.space])
      ++ lineNum p ++ [Chr.space] ++ replaceTabs (content p)
  end.

(** Lines put together again with line feeds. *)
Fixpoint joinLines (l : list str) : str :=
  match l with
  | [] => []
  | x :: rest =>
      match rest with
      | [] => x
      | _ :: _ => x ++ Chr.lf :: joinLines rest
      end
  end.

(** What a theme and a word diff must keep for the visible text to be
    determined: the colour and the highlighter only add markers, and the
    parts of a word diff spell its two texts. *)
Definition fgIsMarkup (T : Theme) : Prop :=
  forall color text, visible (theme_fg color text) = visible text.

Definition highlighterIsMarkup (T : Theme) : Prop :=
  forall content lang first rest,
    highlightCode content lang = first :: rest -> visible first = content.

Definition diffKeepsTexts (D : DiffLib) : Prop :=
  forall oldContent newContent,
    oldText (diffWords oldContent newContent) = oldContent
    /\ newText (diffWords oldContent newContent) = newContent.

(** ** Cutting a diff in two

    A cut between two lists of lines separates no block when the second list
    starts with a line that is neither removed nor added, or when the first
    list ends with a line that is not removed and that, should it be added,
    is not followed by an added line. *)
Definition cleanCut (la lb : list str) : Prop :=
  (hasSign minusSign (hd [] lb) = false /\ hasSign plusSign (hd [] lb) = false)
  \/ (hasSign minusSign (last la []) = false
      /\ (hasSign plusSign (last la []) = false
          \/ hasSign plusSign (hd [] lb) = false)).

(** The text of one side of a word diff. *)
Definition textOf (side : Side) (parts : list Change) : str :=
  match side with OldSide => oldText parts | NewSide => newText parts end.

(** The number of tab escapes in a text. *)
Fixpoint countTabEscapes (s : str) : nat :=
  match s with
  | [] => 0
  | a :: rest =>
      match rest with
      | b :: _ =>
          (if (N.eqb a Chr.backslash && N.eqb b Chr.t)%bool then 1 else 0)
          + countTabEscapes rest
      | [] => 0
      end
  end.

(** * The lazy loading of provider modules

    [lazyStream] keeps the promise of every provider module it has started
    to import in [moduleCache], under the key of the module.  Modelled here
    is its start, up to the promise [mod] that its asynchronous part awaits;
    the forwarding of the events is not.  A loader is a thunk with effects:
    it acts on the world outside and returns a promise. *)
Section ModuleCache.
Variables (Promise World : Type).

(** A Map with string keys, in insertion order. *)
Fixpoint mapGet (key : str) (m : list (str * Promise)) : option Promise :=
  match m with
  | [] => None
  | (k, v) :: m' => if str_eqb k key then Some v else mapGet key m'
  end.

Fixpoint mapSet (key : str) (v : Promise) (m : list (str * Promise))
  : list (str * Promise) :=
  match m with
  | [] => [(key, v)]
  | (k, x) :: m' =>
      if str_eqb k key then (k, v) :: m' else (k, x) :: mapSet key v m'
  end.

Record LoaderState : Type := mkLoaderState {
  moduleCache : list (str * Promise);
  world : World
}.

Definition lazyStreamModule (moduleKey : str) (loader : World -> Promise * World)
  (st : LoaderState) : Promise * LoaderState :=
  match mapGet moduleKey (moduleCache st) with
  | Some mod_ => (mod_, st)
  | None =>
      let '(mod_, w) := loader (world st) in
      (mod_, {| moduleCache := mapSet moduleKey mod_ (moduleCache st); world := w |})
  end.

(** What may happen between two requests: other requests, and anything that
    acts on the world and not on the cache, which [lazyStream] alone
    touches. *)
Inductive Activity : Type :=
| Request (moduleKey : str) (loader : World -> Promise * World)
| Elsewhere (act : World -> World).

Definition perform (st : LoaderState) (a : Activity) : LoaderState :=
  match a with
  | Request moduleKey loader => snd (lazyStreamModule moduleKey loader st)
  | Elsewhere act => {| moduleCache := moduleCache st; world := act (world st) |}
  end.

End ModuleCache.

(** * Properties *)

Unset Implicit Arguments.

(** ** Strings *)

Lemma str_eqb_spec (a b : str) : reflect (a = b) (str_eqb a b).
Proof.
  revert b; induction a as [|x a IH]; intros [|y b]; simpl;
    try (constructor; congruence).
  destruct (N.eqb_spec x y) as [->|Hn]; simpl.
  - destruct (IH b) as [->|Hn]; constructor; congruence.
  - constructor; congruence.
Qed.

Lemma str_eqb_refl (a : str) : str_eqb a a = true.
Proof. destruct (str_eqb_spec a a); congruence. Qed.


(** ** Rendered text and its visible characters *)

Lemma visible_app (a b : out) : visible (a ++ b) = visible a ++ visible b.
Proof.
  induction a as [|[c|e] a IH]; simpl; [reflexivity| |]; rewrite IH; reflexivity.
Qed.

Lemma visible_plain (s : str) : visible (plain s) = s.
Proof. induction s as [|c s IH]; simpl; [|rewrite IH]; reflexivity. Qed.

Lemma plain_app (a b : str) : plain (a ++ b) = plain a ++ plain b.
Proof. apply map_app. Qed.

Lemma leadingWs_skipn (v : str) : leadingWs v ++ skipn (length (leadingWs v)) v = v.
Proof.
  induction v as [|c v IH]; simpl; [reflexivity|].
  destruct (isWhitespace c); simpl; [rewrite IH|]; reflexivity.
Qed.

Lemma leadingWs_all (v : str) : forallb isWhitespace (leadingWs v) = true.
Proof.
  induction v as [|c v IH]; simpl; [reflexivity|].
  destruct (isWhitespace c) eqn:E; simpl; [rewrite E, IH|]; reflexivity.
Qed.

(** ** replaceTabs *)

Lemma hasTabEscape_unfold (x y : char) (s : str) :
  hasTabEscape (x :: y :: s)
  = ((N.eqb x Chr.backslash && N.eqb y Chr.t) || hasTabEscape (y :: s))%bool.
Proof. reflexivity. Qed.

Lemma hasTabEscape_cons (c : char) (s : str) :
  c <> Chr.backslash -> hasTabEscape (c :: s) = hasTabEscape s.
Proof.
  intros Hc. destruct s as [|y s]; [reflexivity|].
  rewrite hasTabEscape_unfold.
  destruct (N.eqb_spec c Chr.backslash); [contradiction|reflexivity].
Qed.

Lemma hasTabEscape_occurs (s : str) :
  hasTabEscape s = true <-> exists a b, s = a ++ tabEscape ++ b.
Proof.
  induction s as [|x s IH]; simpl.
  - split; [discriminate|]. intros (a & b & H). destruct a; discriminate.
  - destruct s as [|y s].
    + split; [discriminate|]. intros (a & b & H).
      destruct a as [|? [|? ?]]; discriminate.
    + rewrite orb_true_iff, andb_true_iff, IH. split.
      * intros [[Hx Hy]|(a & b & H)].
        -- apply N.eqb_eq in Hx, Hy. subst. exists [], s. reflexivity.
        -- exists (x :: a), b. rewrite H. reflexivity.
      * intros (a & b & H). destruct a as [|x' a]; simpl in H.
        -- injection H as -> -> _. left. split; reflexivity.
        -- injection H as -> H. right. exists a, b. exact H.
Qed.

Lemma replaceTabs_unfold (x y : char) (s : str) :
  replaceTabs (x :: y :: s)
  = if (N.eqb x Chr.backslash && N.eqb y Chr.t)%bool
    then Chr.space :: Chr.space :: Chr.space :: replaceTabs s
    else x :: replaceTabs (y :: s).
Proof. reflexivity. Qed.


(** The result of the replacement starts with a letter t only when the
    text does. *)
Lemma replaceTabs_head_t (s r : str) :
  replaceTabs s = Chr.t :: r -> exists s', s = Chr.t :: s'.
Proof.
  destruct s as [|x [|y s]]; [discriminate| |].
  - intros [= -> _]. eauto.
  - rewrite replaceTabs_unfold. destruct (N.eqb x Chr.backslash && N.eqb y Chr.t).
    + discriminate.
    + intros [= -> _]. eauto.
Qed.

Lemma replaceTabs_no_escape (s : str) : hasTabEscape (replaceTabs s) = false.
Proof.
  remember (length s) as n eqn:Hn. revert s Hn.
  induction n as [n IH] using lt_wf_ind. intros s Hn.
  destruct s as [|x [|y s]]; [reflexivity|reflexivity|].
  rewrite replaceTabs_unfold.
  destruct (N.eqb x Chr.backslash && N.eqb y Chr.t) eqn:E.
  - assert (H := IH (length s) ltac:(subst; simpl; lia) s eq_refl).
    rewrite !hasTabEscape_cons by discriminate. exact H.
  - assert (H := IH (length (y :: s)) ltac:(subst; simpl; lia) (y :: s) eq_refl).
    destruct (replaceTabs (y :: s)) as [|z r] eqn:Er; [reflexivity|].
    rewrite hasTabEscape_unfold, H, orb_false_r.
    destruct (N.eqb_spec x Chr.backslash) as [->|]; [|reflexivity].
    destruct (N.eqb_spec z Chr.t) as [->|]; [|reflexivity].
    apply replaceTabs_head_t in Er. destruct Er as (s' & [= -> _]).
    simpl in E. discriminate.
Qed.

Lemma replaceTabs_id (s : str) : hasTabEscape s = false -> replaceTabs s = s.
Proof.
  induction s as [|x s IH]; [reflexivity|].
  destruct s as [|y s]; [reflexivity|].
  rewrite replaceTabs_unfold, hasTabEscape_unfold. intros H.
  apply orb_false_iff in H. destruct H as [H1 H2].
  rewrite H1, (IH H2). reflexivity.
Qed.

Lemma replaceTabs_idem (s : str) : replaceTabs (replaceTabs s) = replaceTabs s.
Proof. apply replaceTabs_id, replaceTabs_no_escape. Qed.

Lemma replaceTabs_app_escape (a b : str) :
  replaceTabs (a ++ tabEscape ++ b)
  = replaceTabs a ++ [Chr.space; Chr.space; Chr.space] ++ replaceTabs b.
Proof.
  remember (length a) as n eqn:Hn. revert a Hn.
  induction n as [n IH] using lt_wf_ind. intros a Hn.
  destruct a as [|x [|y a]].
  - reflexivity.
  - change (([x] ++ tabEscape ++ b)) with (x :: Chr.backslash :: Chr.t :: b).
    rewrite replaceTabs_unfold.
    replace (N.eqb x Chr.backslash && N.eqb Chr.backslash Chr.t) with false
      by (rewrite andb_false_r; reflexivity).
    reflexivity.
  - change ((x :: y :: a) ++ tabEscape ++ b) with (x :: y :: (a ++ tabEscape ++ b)).
    rewrite !replaceTabs_unfold.
    destruct (N.eqb x Chr.backslash && N.eqb y Chr.t).
    + rewrite (IH (length a) ltac:(subst; simpl; lia) a eq_refl). reflexivity.
    + change (y :: a ++ tabEscape ++ b) with ((y :: a) ++ tabEscape ++ b).
      rewrite (IH (length (y :: a)) ltac:(subst; simpl; lia) (y :: a) eq_refl).
      reflexivity.
Qed.


(** ** renderIntraLineDiff *)

Section IntraLine.
Context {T : Theme}.

Lemma appendChanged_later (v : str) (line : out) :
  appendChanged v line false = (line ++ highlighted v, false).
Proof.
  unfold appendChanged, highlighted.
  destruct (truthy v); [reflexivity|]. rewrite app_nil_r. reflexivity.
Qed.

Lemma appendChanged_first (v : str) (line : out) :
  appendChanged v line true
  = (line ++ plain (leadingWs v) ++ highlighted (skipn (length (leadingWs v)) v),
     false).
Proof.
  unfold appendChanged, highlighted.
  destruct (truthy (skipn (length (leadingWs v)) v)).
  - rewrite <- app_assoc. reflexivity.
  - rewrite app_nil_r. reflexivity.
Qed.

Lemma visible_highlighted (v : str) :
  inverseIsMarkup T -> visible (highlighted v) = v.
Proof.
  intros HT. unfold highlighted. destruct v as [|c v]; [reflexivity|].
  cbn [truthy]. rewrite HT. apply visible_plain.
Qed.

Lemma visible_appendChanged (v : str) (line : out) (isFirst : bool) :
  inverseIsMarkup T ->
  visible (fst (appendChanged v line isFirst)) = visible line ++ v.
Proof.
  intros HT. destruct isFirst.
  - rewrite appendChanged_first. cbn [fst].
    rewrite !visible_app, visible_plain, visible_highlighted by exact HT.
    rewrite leadingWs_skipn. reflexivity.
  - rewrite appendChanged_later. cbn [fst].
    rewrite visible_app, visible_highlighted by exact HT. reflexivity.
Qed.

(** The step of the loop, seen from one side. *)
Lemma intraStep_side (side : Side) (st : IntraState) (p : Change) :
  lineOf side (intraStep st p)
  = (if isUnchanged p then lineOf side st ++ plain (value p)
     else if onSide side p
          then fst (appendChanged (value p) (lineOf side st) (flagOf side st))
          else lineOf side st)
  /\ flagOf side (intraStep st p)
     = (if onSide side p then false else flagOf side st).
Proof.
  unfold intraStep, isUnchanged, onSide, kindOf.
  destruct side, (removed p), (added p); cbn [lineOf flagOf];
    try (split; reflexivity);
    match goal with
    | |- context [appendChanged ?v ?l ?f] =>
        destruct f;
        [rewrite appendChanged_first | rewrite appendChanged_later];
        split; reflexivity
    end.
Qed.

Lemma renderParts_visible (side : Side) (parts : list Change) (st : IntraState) :
  inverseIsMarkup T ->
  visible (lineOf side (fold_left intraStep parts st))
  = visible (lineOf side st)
    ++ concat (map value (filter (fun p => isUnchanged p || onSide side p) parts)).
Proof.
  intros HT. revert st. induction parts as [|p parts IH]; intros st.
  - simpl. rewrite app_nil_r. reflexivity.
  - cbn [fold_left]. rewrite IH.
    destruct (intraStep_side side st p) as [Hl _]. rewrite Hl.
    cbn [filter]. destruct (isUnchanged p) eqn:Eu; cbn [orb].
    + cbn [map concat]. rewrite visible_app, visible_plain, app_assoc. reflexivity.
    + destruct (onSide side p) eqn:Es.
      * cbn [map concat].
        rewrite visible_appendChanged by exact HT. rewrite app_assoc. reflexivity.
      * reflexivity.
Qed.

(** Once the flag of a side is down, every part of that side is highlighted
    in full. *)
Lemma renderParts_later (side : Side) (parts : list Change) (st : IntraState) :
  flagOf side st = false ->
  lineOf side (fold_left intraStep parts st) = lineOf side st ++ fullText side parts
  /\ flagOf side (fold_left intraStep parts st) = false.
Proof.
  revert st. induction parts as [|p parts IH]; intros st Hf.
  - simpl. rewrite app_nil_r. split; [reflexivity|exact Hf].
  - cbn [fold_left].
    destruct (intraStep_side side st p) as [Hl Hfl].
    assert (Hf' : flagOf side (intraStep st p) = false).
    { rewrite Hfl. destruct (onSide side p); [reflexivity|exact Hf]. }
    destruct (IH _ Hf') as [IH1 IH2]. split; [|exact IH2].
    rewrite IH1, Hl. unfold fullText. cbn [map concat].
    destruct (isUnchanged p).
    + rewrite <- app_assoc. reflexivity.
    + destruct (onSide side p).
      * rewrite Hf, appendChanged_later. cbn [fst].
        rewrite <- app_assoc. reflexivity.
      * reflexivity.
Qed.

(** Before the first part of a side, only unchanged parts reach its line. *)
Lemma renderParts_before (side : Side) (parts : list Change) (st : IntraState) :
  forallb (fun p => negb (onSide side p)) parts = true ->
  lineOf side (fold_left intraStep parts st) = lineOf side st ++ sharedText parts
  /\ flagOf side (fold_left intraStep parts st) = flagOf side st.
Proof.
  revert st. induction parts as [|p parts IH]; intros st Hall.
  - simpl. rewrite app_nil_r. split; reflexivity.
  - cbn [forallb] in Hall. apply andb_true_iff in Hall. destruct Hall as [Hp Hall].
    apply negb_true_iff in Hp.
    cbn [fold_left].
    destruct (intraStep_side side st p) as [Hl Hfl]. rewrite Hp in Hl, Hfl.
    destruct (IH (intraStep st p) Hall) as [IH1 IH2]. split.
    + rewrite IH1, Hl. unfold sharedText. cbn [map concat].
      destruct (isUnchanged p).
      * rewrite <- app_assoc. reflexivity.
      * reflexivity.
    + rewrite IH2. exact Hfl.
Qed.

Lemma onSide_not_unchanged (side : Side) (p : Change) :
  onSide side p = true -> isUnchanged p = false.
Proof. unfold onSide, isUnchanged. destruct side, (kindOf p); congruence. Qed.

Lemma skipn_leadingWs_all (v : str) :
  forallb isWhitespace v = true ->
  leadingWs v = v /\ skipn (length (leadingWs v)) v = [].
Proof.
  induction v as [|c v IH]; simpl; [split; reflexivity|].
  intros H. apply andb_true_iff in H. destruct H as [Hc Hv].
  rewrite Hc. simpl. destruct (IH Hv) as [-> ->]. split; reflexivity.
Qed.

End IntraLine.

Lemma escTheme_inverse_markup : inverseIsMarkup escTheme.
Proof.
  intros text. cbn [theme_inverse escTheme visible].
  rewrite visible_app. simpl. apply app_nil_r.
Qed.

Lemma oldText_side (parts : list Change) :
  oldText parts
  = concat (map value (filter (fun p => isUnchanged p || onSide OldSide p) parts)).
Proof.
  unfold oldText. do 2 f_equal. apply filter_ext. intros p.
  unfold isUnchanged, onSide. destruct (kindOf p); reflexivity.
Qed.

Lemma newText_side (parts : list Change) :
  newText parts
  = concat (map value (filter (fun p => isUnchanged p || onSide NewSide p) parts)).
Proof.
  unfold newText. do 2 f_equal. apply filter_ext. intros p.
  unfold isUnchanged, onSide. destruct (kindOf p); reflexivity.
Qed.

(** C1.  Whenever the word diff keeps its invariant (the unchanged and removed
    parts spell the old text, the unchanged and added parts the new text) and
    the inversion only adds markers, removing every marker from [removedLine]
    gives the removed content back, and from [addedLine] the added content. *)
Theorem intra_line_reconstruction (D : DiffLib) (T : Theme)
  (removedContent addedContent : str) :
  inverseIsMarkup T ->
  oldText (diffWords removedContent addedContent) = removedContent ->
  newText (diffWords removedContent addedContent) = addedContent ->
  visible (fst (renderIntraLineDiff removedContent addedContent)) = removedContent
  /\ visible (snd (renderIntraLineDiff removedContent addedContent)) = addedContent.
Proof.
  intros HT Hold Hnew. unfold renderIntraLineDiff, renderParts. cbn [fst snd].
  split.
  - change (removedLine ?st) with (lineOf OldSide st).
    rewrite renderParts_visible by exact HT.
    rewrite <- oldText_side, Hold. reflexivity.
  - change (addedLine ?st) with (lineOf NewSide st).
    rewrite renderParts_visible by exact HT.
    rewrite <- newText_side, Hnew. reflexivity.
Qed.

Lemma intra_line_reconstruction_witness :
  visible (fst (@renderIntraLineDiff exampleDiff escTheme
                  (lit "x =   old value;") (lit "x =  new;")))
  = lit "x =   old value;"
  /\ visible (snd (@renderIntraLineDiff exampleDiff escTheme
                     (lit "x =   old value;") (lit "x =  new;")))
     = lit "x =  new;".
Proof.
  apply (intra_line_reconstruction exampleDiff escTheme);
    [exact escTheme_inverse_markup | reflexivity | reflexivity].
Defined.

(** C3.  On either side the leading whitespace is stripped exactly once: the
    first differing part of the side puts its leading whitespace on the line
    unhighlighted and highlights what is left, if anything is; that part
    takes the flag down whether or not it had leading whitespace; and every
    later differing part of the side is highlighted in full. *)
Theorem leading_whitespace_once (T : Theme) (side : Side)
  (pre post : list Change) (p : Change) :
  forallb (fun q => negb (onSide side q)) pre = true ->
  onSide side p = true ->
  lineOf side (renderParts (pre ++ p :: post))
  = sharedText pre
    ++ plain (leadingWs (value p))
    ++ highlighted (skipn (length (leadingWs (value p))) (value p))
    ++ fullText side post
  /\ flagOf side (renderParts pre) = true
  /\ flagOf side (renderParts (pre ++ [p])) = false
  /\ (forallb isWhitespace (value p) = true ->
      lineOf side (renderParts (pre ++ p :: post))
      = sharedText pre ++ plain (value p) ++ fullText side post).
Proof.
  intros Hpre Hp.
  assert (Hu := onSide_not_unchanged side p Hp).
  destruct (renderParts_before side pre intraInit Hpre) as [Hl0 Hf0].
  assert (Hinit : flagOf side intraInit = true) by (destruct side; reflexivity).
  assert (Hline0 : lineOf side intraInit = []) by (destruct side; reflexivity).
  rewrite Hinit in Hf0. rewrite Hline0 in Hl0. cbn [app] in Hl0.
  destruct (intraStep_side side (fold_left intraStep pre intraInit) p) as [Hl1 Hf1].
  rewrite Hu, Hp, Hf0, Hl0, appendChanged_first in Hl1. cbn [fst] in Hl1.
  rewrite Hp in Hf1.
  assert (Hmain :
    lineOf side (renderParts (pre ++ p :: post))
    = sharedText pre
      ++ plain (leadingWs (value p))
      ++ highlighted (skipn (length (leadingWs (value p))) (value p))
      ++ fullText side post).
  { unfold renderParts. rewrite fold_left_app. cbn [fold_left].
    destruct (renderParts_later side post _ Hf1) as [Hl2 _].
    rewrite Hl2, Hl1. rewrite <- !app_assoc. reflexivity. }
  split; [exact Hmain|]. split; [exact Hf0|]. split.
  - unfold renderParts. rewrite fold_left_app. exact Hf1.
  - intros Hws. rewrite Hmain.
    destruct (skipn_leadingWs_all (value p) Hws) as [E1 E2].
    rewrite E2, E1. reflexivity.
Qed.

Lemma leading_whitespace_once_witness :
  lineOf OldSide
    (@renderParts escTheme
       ([mkChange (lit "a ") false false; mkChange (lit "+") true false]
        ++ mkChange (lit "  b") false true
        :: [mkChange (lit " ") false false; mkChange (lit " c d") false true]))
  = plain (lit "a ") ++ plain (lit "  ")
    ++ [Esc [7%N]] ++ plain (lit "b") ++ [Esc [27%N]]
    ++ plain (lit " ")
    ++ [Esc [7%N]] ++ plain (lit " c d") ++ [Esc [27%N]].
Proof.
  refine (eq_trans
    (proj1 (leading_whitespace_once escTheme OldSide
              [mkChange (lit "a ") false false; mkChange (lit "+") true false]
              [mkChange (lit " ") false false; mkChange (lit " c d") false true]
              (mkChange (lit "  b") false true) _ _)) _);
    reflexivity.
Defined.

(** ** The matcher and parseDiffLine *)

Lemma greedy_sound (A : Type) (cls : char -> bool) (k : str -> option A)
  (s m : str) (x : A) :
  greedy cls k s = Some (m, x) ->
  exists r, s = m ++ r /\ forallb cls m = true /\ k r = Some x.
Proof.
  revert m x. induction s as [|c s IH]; intros m x; cbn [greedy].
  - destruct (k []) as [y|] eqn:Ek; [|discriminate].
    intros [= <- <-]. exists []. auto.
  - assert (Hstop : option_map (pair []) (k (c :: s)) = Some (m, x) ->
                    exists r, c :: s = m ++ r /\ forallb cls m = true /\ k r = Some x).
    { destruct (k (c :: s)) as [y|] eqn:Ek; [|discriminate].
      intros [= <- <-]. exists (c :: s). auto. }
    destruct (cls c) eqn:Ec; [|exact Hstop].
    destruct (greedy cls k s) as [[m' y]|] eqn:Eg; [|exact Hstop].
    intros [= <- <-]. destruct (IH m' y eq_refl) as (r & -> & Hm & Hk).
    exists r. cbn [forallb]. rewrite Ec, Hm. auto.
Qed.

Lemma greedy_complete (A : Type) (cls : char -> bool) (k : str -> option A)
  (m r : str) :
  forallb cls m = true -> k r <> None -> greedy cls k (m ++ r) <> None.
Proof.
  intros Hm Hk. induction m as [|c m IH].
  - destruct r as [|c r]; cbn [app greedy].
    + destruct (k []); [discriminate|contradiction].
    + destruct (cls c); [destruct (greedy cls k r) as [[? ?]|]; [discriminate|]|];
        destruct (k (c :: r)); try discriminate; contradiction.
  - cbn [forallb] in Hm. apply andb_true_iff in Hm. destruct Hm as [Hc Hm].
    cbn [app greedy]. rewrite Hc.
    destruct (greedy cls k (m ++ r)) as [[? ?]|]; [discriminate|].
    exfalso. apply (IH Hm). reflexivity.
Qed.

Lemma matchAtoms_sound (re : list atom) (s : str) (l : list str) :
  matchAtoms re s = Some l -> Forall2 atomAccepts re l /\ concat l = s.
Proof.
  revert s l. induction re as [|[cls|cls] re IH]; intros s l; cbn [matchAtoms].
  - destruct s; [|discriminate]. intros [= <-]. split; [constructor|reflexivity].
  - destruct s as [|c s]; [discriminate|].
    destruct (cls c) eqn:Ec; [|discriminate].
    destruct (matchAtoms re s) as [l'|] eqn:El; [|discriminate].
    intros [= <-]. destruct (IH s l' El) as [H1 H2]. split.
    + constructor; [exists c; auto|exact H1].
    + cbn [concat app]. rewrite H2. reflexivity.
  - destruct (greedy cls (matchAtoms re) s) as [[m l']|] eqn:Eg; [|discriminate].
    intros [= <-]. cbn [fst snd].
    destruct (greedy_sound _ _ _ _ _ _ Eg) as (r & -> & Hm & Hk).
    destruct (IH r l' Hk) as [H1 H2]. split.
    + constructor; [exact Hm|exact H1].
    + cbn [concat]. rewrite H2. reflexivity.
Qed.

(** Whatever the line pattern matches is the line, cut in five. *)
Lemma parseDiffLine_sound (line : str) (p : ParsedLine) :
  parseDiffLine line = Some p ->
  exists c ws ds sep,
    prefix p = [c] /\ isPrefixChar c = true
    /\ lineNum p = ws ++ ds
    /\ forallb isWhitespace ws = true /\ forallb isDigit ds = true
    /\ isWhitespace sep = true
    /\ forallb isDot (content p) = true
    /\ line = c :: lineNum p ++ sep :: content p.
Proof.
  unfold parseDiffLine.
  destruct (matchAtoms diffLineRe line) as [l|] eqn:E; [|discriminate].
  destruct (matchAtoms_sound _ _ _ E) as [Hacc Hcat].
  unfold diffLineRe in Hacc.
  inversion Hacc as [|a1 g1 re1 l1 A1 Hacc1]; subst.
  inversion Hacc1 as [|a2 ws re2 l2 A2 Hacc2]; subst.
  inversion Hacc2 as [|a3 ds re3 l3 A3 Hacc3]; subst.
  inversion Hacc3 as [|a4 g4 re4 l4 A4 Hacc4]; subst.
  inversion Hacc4 as [|a5 g3 re5 l5 A5 Hacc5]; subst.
  inversion Hacc5; subst.
  intros [= <-]. cbn [prefix lineNum content].
  destruct A1 as (c & -> & Hc). destruct A4 as (sep & -> & Hsep).
  cbn [atomAccepts] in A2, A3, A5.
  exists c, ws, ds, sep. repeat (split; [assumption || reflexivity|]).
  cbn [concat app]. rewrite app_nil_r, <- app_assoc. reflexivity.
Qed.

(** Every line that can be cut in five along the pattern parses. *)
Lemma parseDiffLine_complete (c sep : char) (ws ds rest : str) :
  isPrefixChar c = true ->
  forallb isWhitespace ws = true -> forallb isDigit ds = true ->
  isWhitespace sep = true -> forallb isDot rest = true ->
  exists p, parseDiffLine (c :: ws ++ ds ++ sep :: rest) = Some p.
Proof.
  intros Hc Hws Hds Hsep Hrest.
  assert (H5 : matchAtoms [Many isDot] rest <> None).
  { assert (G := greedy_complete _ isDot (matchAtoms []) rest [] Hrest
                   ltac:(discriminate)).
    rewrite app_nil_r in G.
    change (matchAtoms [Many isDot] rest)
      with (option_map (fun mr => fst mr :: snd mr)
              (greedy isDot (matchAtoms []) rest)).
    destruct (greedy isDot (matchAtoms []) rest); simpl; congruence. }
  assert (H4 : matchAtoms [One isWhitespace; Many isDot] (sep :: rest) <> None).
  { change (matchAtoms [One isWhitespace; Many isDot] (sep :: rest))
      with (if isWhitespace sep
            then option_map (cons [sep]) (matchAtoms [Many isDot] rest) else None).
    rewrite Hsep. destruct (matchAtoms [Many isDot] rest); simpl; congruence. }
  assert (H3 : matchAtoms [Many isDigit; One isWhitespace; Many isDot]
                 (ds ++ sep :: rest) <> None).
  { assert (G := greedy_complete _ _ _ _ _ Hds H4).
    change (matchAtoms [Many isDigit; One isWhitespace; Many isDot] (ds ++ sep :: rest))
      with (option_map (fun mr => fst mr :: snd mr)
              (greedy isDigit (matchAtoms [One isWhitespace; Many isDot])
                 (ds ++ sep :: rest))).
    destruct (greedy isDigit _ (ds ++ sep :: rest)); simpl; congruence. }
  assert (H2 : matchAtoms [Many isWhitespace; Many isDigit; One isWhitespace; Many isDot]
                 (ws ++ ds ++ sep :: rest) <> None).
  { assert (G := greedy_complete _ _ _ _ _ Hws H3).
    change (matchAtoms [Many isWhitespace; Many isDigit; One isWhitespace; Many isDot]
              (ws ++ ds ++ sep :: rest))
      with (option_map (fun mr => fst mr :: snd mr)
              (greedy isWhitespace
                 (matchAtoms [Many isDigit; One isWhitespace; Many isDot])
                 (ws ++ ds ++ sep :: rest))).
    destruct (greedy isWhitespace _ (ws ++ ds ++ sep :: rest));
      simpl; congruence. }
  assert (H1 : matchAtoms diffLineRe (c :: ws ++ ds ++ sep :: rest) <> None).
  { change (matchAtoms diffLineRe (c :: ws ++ ds ++ sep :: rest))
      with (if isPrefixChar c
            then option_map (cons [c])
                   (matchAtoms [Many isWhitespace; Many isDigit; One isWhitespace; Many isDot]
                      (ws ++ ds ++ sep :: rest))
            else None).
    rewrite Hc.
    destruct (matchAtoms [Many isWhitespace; Many isDigit; One isWhitespace; Many isDot]
                (ws ++ ds ++ sep :: rest)); simpl; congruence. }
  unfold parseDiffLine.
  destruct (matchAtoms diffLineRe (c :: ws ++ ds ++ sep :: rest)) as [l|] eqn:E;
    [|contradiction].
  destruct (matchAtoms_sound _ _ _ E) as [Hacc _]. unfold diffLineRe in Hacc.
  do 5 (inversion Hacc as [|? ? ? ? _ Hacc']; subst; clear Hacc; rename Hacc' into Hacc).
  inversion Hacc; subst. eauto.
Qed.

(** ** The runs and the outer loop *)

Lemma runLength_le (sign : str) (rest : list str) :
  runLength sign rest <= length rest.
Proof.
  induction rest as [|l rest IH]; simpl; [lia|].
  destruct (hasSign sign l); simpl; lia.
Qed.

Lemma runLength_all (sign : str) (rest : list str) :
  Forall (fun l => hasSign sign l = true) (firstn (runLength sign rest) rest).
Proof.
  induction rest as [|l rest IH]; simpl; [constructor|].
  destruct (hasSign sign l) eqn:E; simpl; constructor; assumption.
Qed.

Lemma runLength_stop (sign : str) (rest : list str) (l : str) :
  nth_error rest (runLength sign rest) = Some l -> hasSign sign l = false.
Proof.
  induction rest as [|x rest IH]; simpl; [discriminate|].
  destruct (hasSign sign x) eqn:E; simpl.
  - exact IH.
  - intros [= <-]. exact E.
Qed.

Lemma collectRun_spec (sign : str) (rest : list str) (i : nat) (acc : list Entry.t) :
  collectRun sign rest i acc
  = (i + runLength sign rest,
     acc ++ map entryOf (firstn (runLength sign rest) rest)).
Proof.
  revert i acc. induction rest as [|l rest IH]; intros i acc; cbn [collectRun runLength].
  - rewrite Nat.add_0_r. cbn. rewrite app_nil_r. reflexivity.
  - unfold hasSign.
    destruct (parseDiffLine l) as [p|] eqn:Ep.
    + destruct (str_eqb (prefix p) sign) eqn:Es; cbn [negb].
      * rewrite IH. cbn [firstn map].
        replace (entryOf l) with (Entry.mk (lineNum p) (content p))
          by (unfold entryOf; rewrite Ep; reflexivity).
        rewrite <- app_assoc. f_equal. lia.
      * rewrite Nat.add_0_r. cbn. rewrite app_nil_r. reflexivity.
    + rewrite Nat.add_0_r. cbn. rewrite app_nil_r. reflexivity.
Qed.

Lemma nth_error_skipn_head {A : Type} (l : list A) (i : nat) (x : A) :
  nth_error l i = Some x -> exists rest, skipn i l = x :: rest.
Proof.
  revert i. induction l as [|y l IH]; intros [|i]; simpl; try discriminate.
  - intros [= ->]. eauto.
  - apply IH.
Qed.

Lemma nth_error_skipn_add {A : Type} (l : list A) (i j : nat) :
  nth_error (skipn i l) j = nth_error l (i + j).
Proof.
  revert i. induction l as [|y l IH]; intros [|i]; simpl; try reflexivity.
  - destruct j; reflexivity.
  - apply IH.
Qed.

Section Loop.
Context {D : DiffLib} {T : Theme}.

Lemma fold_push {A : Type} (f : A -> out) (l : list A) (result : list out) :
  fold_left (fun res x => res ++ [f x]) l result = result ++ map f l.
Proof.
  revert result. induction l as [|x l IH]; intros result; cbn [fold_left map].
  - rewrite app_nil_r. reflexivity.
  - rewrite IH, <- app_assoc. reflexivity.
Qed.

Lemma renderBlock_spec (lang : option str) (removedLines addedLines : list Entry.t)
  (result : list out) :
  renderBlock lang removedLines addedLines result
  = result ++
    (if (length removedLines =? 1) && (length addedLines =? 1)
     then intraLines (nth 0 removedLines (Entry.mk [] []))
                     (nth 0 addedLines (Entry.mk [] []))
     else blockLines lang removedLines addedLines).
Proof.
  unfold renderBlock, intraLines, blockLines.
  destruct ((length removedLines =? 1) && (length addedLines =? 1)).
  - destruct (renderIntraLineDiff _ _) as [rl al].
    rewrite <- app_assoc. reflexivity.
  - rewrite !fold_push, <- app_assoc. reflexivity.
Qed.

Lemma intraLines_length (removed added : Entry.t) :
  length (intraLines removed added) = 2.
Proof. unfold intraLines. destruct (renderIntraLineDiff _ _). reflexivity. Qed.

Lemma renderBlock_length (lang : option str) (removedLines addedLines : list Entry.t)
  (result : list out) :
  length (renderBlock lang removedLines addedLines result)
  = length result + (length removedLines + length addedLines).
Proof.
  rewrite renderBlock_spec, length_app. f_equal.
  destruct (length removedLines =? 1) eqn:E1; cbn [andb].
  - destruct (length addedLines =? 1) eqn:E2.
    + apply Nat.eqb_eq in E1, E2. rewrite intraLines_length. lia.
    + unfold blockLines. rewrite length_app, !length_map. reflexivity.
  - unfold blockLines. rewrite length_app, !length_map. reflexivity.
Qed.

(** The iteration at a line that parses as removed. *)
Lemma iteration_removed (lang : option str) (lines : list str) (i : nat)
  (line : str) (result : list out) :
  nth_error lines i = Some line -> hasSign minusSign line = true ->
  iteration lang lines i line result
  = (i + runLength minusSign (skipn i lines)
       + runLength plusSign (skipn (i + runLength minusSign (skipn i lines)) lines),
     renderBlock lang
       (map entryOf (firstn (runLength minusSign (skipn i lines)) (skipn i lines)))
       (map entryOf
          (firstn (runLength plusSign
                     (skipn (i + runLength minusSign (skipn i lines)) lines))
                  (skipn (i + runLength minusSign (skipn i lines)) lines)))
       result).
Proof.
  intros _ Hs. unfold iteration. unfold hasSign in Hs.
  destruct (parseDiffLine line) as [p|]; [|discriminate]. rewrite Hs.
  rewrite collectRun_spec. cbn [app].
  rewrite collectRun_spec. cbn [app]. reflexivity.
Qed.

(** The iteration at any other line. *)
Lemma iteration_single (lang : option str) (lines : list str) (i : nat)
  (line : str) (result : list out) :
  hasSign minusSign line = false ->
  exists o, iteration lang lines i line result = (S i, result ++ [o]).
Proof.
  intros Hs. unfold iteration. unfold hasSign in Hs.
  destruct (parseDiffLine line) as [p|]; [|eauto].
  rewrite Hs. destruct (str_eqb (prefix p) plusSign); eauto.
Qed.

Lemma removed_run_positive (lines : list str) (i : nat) (line : str) :
  nth_error lines i = Some line -> hasSign minusSign line = true ->
  1 <= runLength minusSign (skipn i lines).
Proof.
  intros Hn Hs. destruct (nth_error_skipn_head _ _ _ Hn) as (rest & ->).
  cbn [runLength]. rewrite Hs. lia.
Qed.

Lemma runs_within (lines : list str) (i : nat) :
  i <= length lines ->
  i + runLength minusSign (skipn i lines)
    + runLength plusSign (skipn (i + runLength minusSign (skipn i lines)) lines)
  <= length lines.
Proof.
  intros Hi.
  assert (H1 := runLength_le minusSign (skipn i lines)).
  assert (H2 := runLength_le plusSign
                  (skipn (i + runLength minusSign (skipn i lines)) lines)).
  rewrite length_skipn in H1, H2. lia.
Qed.

(** Every iteration moves the cursor forward, stays within the lines, and
    pushes as many lines as it moved over. *)
Lemma iteration_advance (lang : option str) (lines : list str) (i : nat)
  (line : str) (result : list out) :
  nth_error lines i = Some line ->
  i < fst (iteration lang lines i line result) <= length lines
  /\ length (snd (iteration lang lines i line result))
     = length result + (fst (iteration lang lines i line result) - i).
Proof.
  intros Hn.
  assert (Hlt : i < length lines) by (apply nth_error_Some; congruence).
  destruct (hasSign minusSign line) eqn:Hs.
  - rewrite (iteration_removed lang lines i line result Hn Hs). cbn [fst snd].
    assert (H1 := removed_run_positive lines i line Hn Hs).
    assert (H2 := runs_within lines i ltac:(lia)).
    assert (H3 := runLength_le minusSign (skipn i lines)).
    assert (H4 := runLength_le plusSign
                    (skipn (i + runLength minusSign (skipn i lines)) lines)).
    rewrite renderBlock_length, !length_map, !length_firstn.
    split; lia.
  - destruct (iteration_single lang lines i line result Hs) as (o & ->).
    cbn [fst snd]. rewrite length_app. cbn [length]. split; lia.
Qed.

Lemma firstn_skipn_segment {A : Type} (l : list A) (i i' : nat) :
  i <= i' -> firstn (i' - i) (skipn i l) ++ skipn i' l = skipn i l.
Proof.
  intros H. replace i' with ((i' - i) + i) at 2 by lia.
  rewrite <- skipn_skipn. apply firstn_skipn.
Qed.

Lemma Pass_covers (lang : option str) (lines : list str) (i : nat)
  (result : list out) (segs : list (list str)) (final : list out) :
  Pass lang lines i result segs final ->
  concat segs = skipn i lines /\ Forall (fun seg => seg <> []) segs
  /\ length final = length result + (length lines - i).
Proof.
  induction 1 as [result|i i' line result result' segs final Hn Hit Hlt HP IH].
  - rewrite skipn_all. split; [reflexivity|]. split; [constructor|lia].
  - destruct IH as (IH1 & IH2 & IH3).
    destruct (iteration_advance lang lines i line result Hn) as [[_ Hle] Hlen].
    rewrite Hit in Hle, Hlen. cbn [fst snd] in Hle, Hlen.
    split; [|split].
    + cbn [concat]. rewrite IH1. apply firstn_skipn_segment. lia.
    + constructor; [|exact IH2].
      destruct (nth_error_skipn_head _ _ _ Hn) as (rest & ->).
      destruct (i' - i) as [|k] eqn:Ek; [lia|]. discriminate.
    + lia.
Qed.

(** With as much fuel as there are lines left the loop ends, and its run is
    a pass. *)
Lemma renderLoop_pass (lang : option str) (lines : list str) (fuel i : nat)
  (result : list out) :
  i <= length lines -> length lines - i <= fuel ->
  exists segs final,
    renderLoop lang lines fuel i result = Some final
    /\ Pass lang lines i result segs final.
Proof.
  revert i result. induction fuel as [|fuel IH]; intros i result Hi Hfuel.
  - assert (i = length lines) by lia. subst i.
    exists [], result. split; [|constructor].
    cbn [renderLoop].
    destruct (nth_error lines (length lines)) eqn:E; [|reflexivity].
    assert (length lines < length lines) by (apply nth_error_Some; congruence). lia.
  - cbn [renderLoop]. destruct (nth_error lines i) as [line|] eqn:Hn.
    + destruct (iteration_advance lang lines i line result Hn) as [[Hlt Hle] _].
      destruct (iteration lang lines i line result) as [i' result'] eqn:Hit.
      cbn [fst] in Hlt, Hle.
      destruct (IH i' result' Hle ltac:(lia)) as (segs & final & Hrun & HP).
      exists (firstn (i' - i) (skipn i lines) :: segs), final.
      split; [exact Hrun|]. econstructor; eassumption.
    + apply nth_error_None in Hn. assert (i = length lines) by lia. subst i.
      exists [], result. split; [reflexivity|constructor].
Qed.

Lemma renderLines_pass (lang : option str) (lines : list str) :
  exists segs final,
    renderLines lang lines = Some final /\ Pass lang lines 0 [] segs final.
Proof. apply renderLoop_pass; lia. Qed.

Lemma renderDiff_total (diffText : str) (options : RenderDiffOptions) :
  exists result,
    renderLines (resolveLang options) (split diffText) = Some result
    /\ renderDiff diffText options = Some (join [Ch Chr.lf] result).
Proof.
  destruct (renderLines_pass (resolveLang options) (split diffText))
    as (segs & final & Hrun & _).
  exists final. split; [exact Hrun|]. unfold renderDiff. rewrite Hrun. reflexivity.
Qed.

End Loop.

(** ** The claims about renderDiff *)

(** C2.  At a line that parses as removed the renderer collects the removed
    run and the added run after it, and the way it renders them is decided by
    the two lengths alone: with one removed and one added line it delegates
    the two lines to the intra-line highlighter; in every other case, and so
    with two removed lines and one added line, each line of the two runs is
    rendered on its own. *)
Theorem pairing_by_run_lengths (D : DiffLib) (T : Theme) (lang : option str)
  (lines : list str) (i : nat) (line : str) (result : list out) :
  nth_error lines i = Some line -> hasSign minusSign line = true ->
  let r := runLength minusSign (skipn i lines) in
  let a := runLength plusSign (skipn (i + r) lines) in
  let removedLines := map entryOf (firstn r (skipn i lines)) in
  let addedLines := map entryOf (firstn a (skipn (i + r) lines)) in
  length removedLines = r /\ length addedLines = a
  /\ (r = 1 /\ a = 1 ->
      exists line', nth_error lines (S i) = Some line'
        /\ snd (iteration lang lines i line result)
           = result ++ intraLines (entryOf line) (entryOf line'))
  /\ (~ (r = 1 /\ a = 1) ->
      snd (iteration lang lines i line result)
      = result ++ blockLines lang removedLines addedLines)
  /\ (r = 2 -> a = 1 ->
      snd (iteration lang lines i line result)
      = result ++ blockLines lang removedLines addedLines).
Proof.
  intros Hn Hs r a removedLines addedLines.
  assert (Hr : length removedLines = r).
  { unfold removedLines. rewrite length_map, length_firstn.
    assert (H := runLength_le minusSign (skipn i lines)). fold r in H. lia. }
  assert (Ha : length addedLines = a).
  { unfold addedLines. rewrite length_map, length_firstn.
    assert (H := runLength_le plusSign (skipn (i + r) lines)). fold a in H. lia. }
  assert (Hit : snd (iteration lang lines i line result)
                = result ++
                  (if (r =? 1) && (a =? 1)
                   then intraLines (nth 0 removedLines (Entry.mk [] []))
                                   (nth 0 addedLines (Entry.mk [] []))
                   else blockLines lang removedLines addedLines)).
  { rewrite (iteration_removed lang lines i line result Hn Hs). cbn [snd].
    fold r. fold a. fold removedLines. fold addedLines.
    rewrite renderBlock_spec, Hr, Ha. reflexivity. }
  split; [exact Hr|]. split; [exact Ha|]. split; [|split].
  - intros [Hr1 Ha1]. rewrite Hit, Hr1, Ha1. cbn [Nat.eqb andb].
    destruct (nth_error_skipn_head _ _ _ Hn) as (rest & Hrest).
    assert (Hadd : skipn (i + r) lines = rest).
    { rewrite Hr1. replace (i + 1) with (1 + i) by lia.
      rewrite <- skipn_skipn, Hrest. reflexivity. }
    unfold removedLines, addedLines. rewrite Hadd, Hr1, Hrest, Ha1.
    assert (Ea : a = runLength plusSign rest) by (unfold a; rewrite Hadd; reflexivity).
    destruct rest as [|line' rest]; [cbn in Ea; lia|].
    exists line'. split; [|reflexivity].
    rewrite <- (Nat.add_1_r i), <- nth_error_skipn_add, Hrest. reflexivity.
  - intros Hnot. rewrite Hit.
    destruct (Nat.eqb_spec r 1) as [E1|E1]; cbn [andb]; [|reflexivity].
    destruct (Nat.eqb_spec a 1) as [E2|E2]; [|reflexivity].
    exfalso. apply Hnot. split; assumption.
  - intros E1 E2. rewrite Hit, E1, E2. reflexivity.
Qed.

Lemma pairing_by_run_lengths_witness :
  snd (@iteration wholeDiff escTheme None
         [lit "-1 a"; lit "-2 b"; lit "+1 c"; lit " 2 d"] 0 (lit "-1 a") [])
  = [] ++ @blockLines escTheme None
            [Entry.mk (lit "1") (lit "a"); Entry.mk (lit "2") (lit "b")]
            [Entry.mk (lit "1") (lit "c")].
Proof.
  exact (proj2 (proj2 (proj2 (proj2
           (pairing_by_run_lengths wholeDiff escTheme None
              [lit "-1 a"; lit "-2 b"; lit "+1 c"; lit " 2 d"] 0 (lit "-1 a") []
              eq_refl eq_refl)))) eq_refl eq_refl).
Defined.

(** C4.  The renderer goes over the lines once, from left to right: its run
    is a chain of iterations that each start at a line and move the cursor
    forward, and the segments they consume, put end to end, are the lines.
    At a removed line the iteration consumes the longest run of removed
    lines and then the longest run, possibly empty, of added lines right
    after it, and leaves the cursor behind both; outside the intra-line case
    it pushes the removed lines in their order and then the added lines in
    theirs. *)
Theorem single_cursor_pass (D : DiffLib) (T : Theme) (lang : option str)
  (lines : list str) :
  (exists segs final,
      renderLines lang lines = Some final
      /\ Pass lang lines 0 [] segs final
      /\ concat segs = lines
      /\ Forall (fun seg => seg <> []) segs)
  /\ (forall (i : nat) (line : str) (result : list out),
        nth_error lines i = Some line -> hasSign minusSign line = true ->
        let r := runLength minusSign (skipn i lines) in
        let a := runLength plusSign (skipn (i + r) lines) in
        let removedRun := firstn r (skipn i lines) in
        let addedRun := firstn a (skipn (i + r) lines) in
        1 <= r /\ i + r + a <= length lines
        /\ length removedRun = r /\ length addedRun = a
        /\ Forall (fun l => hasSign minusSign l = true) removedRun
        /\ Forall (fun l => hasSign plusSign l = true) addedRun
        /\ (forall l, nth_error lines (i + r) = Some l -> hasSign minusSign l = false)
        /\ (forall l, nth_error lines (i + r + a) = Some l -> hasSign plusSign l = false)
        /\ fst (iteration lang lines i line result) = i + r + a
        /\ ((r =? 1) && (a =? 1) = false ->
            snd (iteration lang lines i line result)
            = result ++ map (removedBlockLine lang) (map entryOf removedRun)
                     ++ map (addedBlockLine lang) (map entryOf addedRun))).
Proof.
  split.
  - destruct (renderLines_pass lang lines) as (segs & final & Hrun & HP).
    destruct (Pass_covers lang lines 0 [] segs final HP) as (Hc & Hne & _).
    exists segs, final. auto.
  - intros i line result Hn Hs r a removedRun addedRun.
    assert (Hlt : i < length lines) by (apply nth_error_Some; congruence).
    assert (H1 := removed_run_positive lines i line Hn Hs). fold r in H1.
    assert (H2 := runs_within lines i ltac:(lia)). fold r in H2. fold a in H2.
    assert (H3 := runLength_le minusSign (skipn i lines)). fold r in H3.
    assert (H4 := runLength_le plusSign (skipn (i + r) lines)). fold a in H4.
    split; [exact H1|]. split; [exact H2|].
    split; [unfold removedRun; rewrite length_firstn; lia|].
    split; [unfold addedRun; rewrite length_firstn; lia|].
    split; [apply runLength_all|]. split; [apply runLength_all|].
    split; [|split; [|split]].
    + intros l Hl. rewrite <- nth_error_skipn_add in Hl.
      exact (runLength_stop minusSign _ l Hl).
    + intros l Hl. rewrite <- nth_error_skipn_add in Hl.
      exact (runLength_stop plusSign _ l Hl).
    + rewrite (iteration_removed lang lines i line result Hn Hs). reflexivity.
    + intros Hmode.
      rewrite (iteration_removed lang lines i line result Hn Hs). cbn [snd].
      fold r. fold a. fold removedRun. fold addedRun.
      rewrite renderBlock_spec, !length_map.
      replace (length removedRun) with r by (unfold removedRun; rewrite length_firstn; lia).
      replace (length addedRun) with a by (unfold addedRun; rewrite length_firstn; lia).
      rewrite Hmode. reflexivity.
Qed.

Lemma single_cursor_pass_witness :
  fst (@iteration wholeDiff escTheme None
         [lit " 1 x"; lit "-2 a"; lit "-3 b"; lit "+2 c"; lit "+3 d"; lit "+4 e"; lit " 5 y"]
         1 (lit "-2 a") [])
  = 1 + 2 + 3.
Proof.
  destruct (proj2 (single_cursor_pass wholeDiff escTheme None
              [lit " 1 x"; lit "-2 a"; lit "-3 b"; lit "+2 c"; lit "+3 d"; lit "+4 e"; lit " 5 y"])
              1 (lit "-2 a") [] eq_refl eq_refl)
    as (_ & _ & _ & _ & _ & _ & _ & _ & Hcursor & _).
  exact Hcursor.
Defined.

(** C5.  The renderer returns, and the lines it rendered are as many as the
    lines of the input: an iteration at a line that is not removed pushes one
    line and moves the cursor by one, and a block pushes as many lines as its
    two runs hold, which in the intra-line case is two. *)
Theorem rendered_line_count (D : DiffLib) (T : Theme) (diffText : str)
  (options : RenderDiffOptions) :
  (exists result,
      renderLines (resolveLang options) (split diffText) = Some result
      /\ renderDiff diffText options = Some (join [Ch Chr.lf] result)
      /\ length result = length (split diffText))
  /\ (forall lang lines i line result,
        hasSign minusSign line = false ->
        fst (iteration lang lines i line result) = S i
        /\ length (snd (iteration lang lines i line result)) = S (length result))
  /\ (forall lang removedLines addedLines result,
        length (renderBlock lang removedLines addedLines result)
        = length result + (length removedLines + length addedLines))
  /\ (forall lang removed added result,
        length (renderBlock lang [removed] [added] result) = length result + 2).
Proof.
  split; [|split; [|split]].
  - destruct (renderLines_pass (resolveLang options) (split diffText))
      as (segs & final & Hrun & HP).
    destruct (Pass_covers _ _ _ _ _ _ HP) as (_ & _ & Hlen).
    exists final. split; [exact Hrun|]. split.
    + unfold renderDiff. rewrite Hrun. reflexivity.
    + rewrite Hlen. cbn [length]. lia.
  - intros lang lines i line result Hs.
    destruct (iteration_single lang lines i line result Hs) as (o & ->).
    cbn [fst snd]. rewrite length_app. cbn [length]. split; lia.
  - intros. apply renderBlock_length.
  - intros. rewrite renderBlock_length. reflexivity.
Qed.

Lemma rendered_line_count_witness :
  length (snd (@iteration wholeDiff escTheme None
                 [lit "@@ -1,2 +1,2 @@"; lit "+1 a"] 0 (lit "@@ -1,2 +1,2 @@") []))
  = 1.
Proof.
  exact (proj2 (proj1 (proj2
           (rendered_line_count wholeDiff escTheme (lit "") noOptions))
           None [lit "@@ -1,2 +1,2 @@"; lit "+1 a"] 0 (lit "@@ -1,2 +1,2 @@") []
           eq_refl)).
Defined.

(** C6 as stated fails: a raw line that holds the tab escape is rendered with
    the escape in place, not with three spaces for it. *)
Lemma raw_line_tab_escape_kept :
  parseDiffLine (lit "x\ty") = None
  /\ option_map visible (@renderDiff wholeDiff escTheme (lit "x\ty") noOptions)
     = Some (lit "x\ty")
  /\ option_map visible (@renderDiff wholeDiff escTheme (lit "x\ty") noOptions)
     <> Some (replaceTabs (lit "x\ty")).
Proof.
  split; [reflexivity|]. split; [reflexivity|]. vm_compute. discriminate.
Qed.


(** C8.  Outside the intra-line case a line is rendered with its content
    after the tab substitution and nothing else whenever no language comes
    out of the options (no path, or a path the resolver has no language for)
    or the highlighter returns no line for the content; and the renderer
    returns all the same. *)
Theorem highlight_fallback (D : DiffLib) (T : Theme) (options : RenderDiffOptions)
  (color : ThemeColor) (sign num text diffText : str) :
  (filePath options = None
   \/ (exists path, filePath options = Some path /\ getLanguageFromPath path = None)
   \/ (exists l, resolveLang options = Some l
                 /\ highlightCode (replaceTabs text) l = [])) ->
  highlightLine (replaceTabs text) (resolveLang options) = plain (replaceTabs text)
  /\ renderLine color sign (resolveLang options) num text
     = theme_fg color (plain (sign ++ num)) ++ [Ch Chr.space] ++ plain (replaceTabs text)
  /\ exists o, renderDiff diffText options = Some o.
Proof.
  intros H.
  assert (Hh : highlightLine (replaceTabs text) (resolveLang options)
               = plain (replaceTabs text)).
  { destruct H as [Hnone|[(path & Hp & Hr)|(l & Hl & Hc)]].
    - unfold resolveLang. rewrite Hnone. reflexivity.
    - unfold resolveLang. rewrite Hp, Hr. destruct (truthy path); reflexivity.
    - rewrite Hl. unfold highlightLine. rewrite Hc.
      destruct (negb (truthy l)); reflexivity. }
  split; [exact Hh|]. split.
  - unfold renderLine. rewrite Hh. reflexivity.
  - destruct (renderDiff_total diffText options) as (result & _ & Hr). eauto.
Qed.

Lemma highlight_fallback_witness :
  @renderLine escTheme toolDiffAdded plusSign
    (@resolveLang escTheme (mkOptions (Some (lit "notes.txt")))) (lit "12") (lit "a\tb")
  = [Esc [32%N]] ++ plain (lit "+12") ++ [Esc [39%N]] ++ plain (lit " a   b").
Proof.
  refine (eq_trans (proj1 (proj2
    (highlight_fallback wholeDiff escTheme (mkOptions (Some (lit "notes.txt")))
       toolDiffAdded plusSign (lit "12") (lit "a\tb") (lit "+12 a\tb")
       (or_intror (or_introl (ex_intro _ (lit "notes.txt") (conj eq_refl eq_refl))))))) _).
  reflexivity.
Defined.

(** C9 as stated fails under a theme that brackets its text in markers: the
    output holds the two markers of the context colour. *)
Lemma empty_input_not_empty :
  @renderDiff wholeDiff escTheme [] noOptions = Some [Esc [90%N]; Esc [39%N]]
  /\ @renderDiff wholeDiff escTheme [] noOptions <> Some [].
Proof. split; [reflexivity|discriminate]. Qed.

Lemma whitespace_not_sign (c : char) :
  isWhitespace c = true ->
  str_eqb [c] minusSign = false /\ str_eqb [c] plusSign = false.
Proof.
  intros Hc. split.
  - destruct (str_eqb_spec [c] minusSign) as [[= ->]|]; [discriminate|reflexivity].
  - destruct (str_eqb_spec [c] plusSign) as [[= ->]|]; [discriminate|reflexivity].
Qed.

(** ** Examples *)

(** A context line, a one-line modification and a context line: four lines,
    the two in the middle with their changed words inverted. *)
Example render_single_modification :
  option_map visible
    (@renderDiff wholeDiff escTheme
       (lit " 1 foo" ++ Chr.lf :: lit "-2 bar" ++ Chr.lf :: lit "+2 baz"
          ++ Chr.lf :: lit " 3 qux") noOptions)
  = Some (lit " 1 foo" ++ Chr.lf :: lit "-2 bar" ++ Chr.lf :: lit "+2 baz"
            ++ Chr.lf :: lit " 3 qux")
  /\ option_map (@length (list sym))
       (@renderLines wholeDiff escTheme None
          [lit " 1 foo"; lit "-2 bar"; lit "+2 baz"; lit " 3 qux"])
     = Some 4.
Proof. split; reflexivity. Qed.

(** Two removed lines and one added line are three lines, in that order. *)
Example render_block :
  @renderLines wholeDiff escTheme None [lit "-1 a"; lit "-2 b"; lit "+1 c"]
  = Some [[Esc [31%N]] ++ plain (lit "-1") ++ [Esc [39%N]] ++ plain (lit " a");
          [Esc [31%N]] ++ plain (lit "-2") ++ [Esc [39%N]] ++ plain (lit " b");
          [Esc [32%N]] ++ plain (lit "+1") ++ [Esc [39%N]] ++ plain (lit " c")].
Proof. reflexivity. Qed.

(** The dot of the pattern stops at a carriage return: a line that ends in
    one is a raw line. *)
Example carriage_return_line_is_raw :
  parseDiffLine (lit "+1 foo" ++ [Chr.cr]) = None.
Proof. reflexivity. Qed.

(** The run of whitespace of the line number gives its last character back
    to be the separator. *)
Example blank_line_number :
  parseDiffLine (lit "     ...")
  = Some {| prefix := lit " "; lineNum := lit "   "; content := lit "..." |}.
Proof. reflexivity. Qed.

(** ** The line pattern, resolved *)

Lemma whitespace_not_digit (c : char) : isWhitespace c = true -> isDigit c = false.
Proof.
  unfold isWhitespace, isDigit, inRange. intros H.
  destruct (N.leb_spec 48 c) as [H1|]; [|reflexivity].
  destruct (N.leb_spec c 57) as [H2|]; [|reflexivity].
  exfalso. revert H.
  repeat match goal with
         | |- context [N.leb ?a ?b] => destruct (N.leb_spec a b); try lia
         | |- context [N.eqb ?a ?b] => destruct (N.eqb_spec a b); try lia
         end; simpl; discriminate.
Qed.

Lemma leadingDigits_skipn (s : str) :
  leadingDigits s ++ skipn (length (leadingDigits s)) s = s.
Proof.
  induction s as [|c s IH]; simpl; [reflexivity|].
  destruct (isDigit c); simpl; [rewrite IH|]; reflexivity.
Qed.

(** The last star of the pattern, up to the end of the text. *)
Lemma greedy_dot_end (rest : str) :
  greedy isDot (matchAtoms []) rest
  = if forallb isDot rest then Some (rest, []) else None.
Proof.
  induction rest as [|c rest IH]; [reflexivity|].
  cbn [greedy forallb]. rewrite IH.
  destruct (isDot c); cbn [andb]; [|reflexivity].
  destruct (forallb isDot rest); reflexivity.
Qed.

(** A digit star whose continuation refuses every text that starts with a
    digit takes the whole run of digits. *)
Lemma greedy_digits (A : Type) (k : str -> option A) (s : str) :
  (forall c s', isDigit c = true -> k (c :: s') = None) ->
  greedy isDigit k s
  = option_map (pair (leadingDigits s)) (k (skipn (length (leadingDigits s)) s)).
Proof.
  intros Hk. induction s as [|c s IH]; [reflexivity|].
  cbn [greedy leadingDigits]. destruct (isDigit c) eqn:Ec.
  - rewrite IH. cbn [length skipn].
    destruct (k (skipn _ s)) as [x|]; [reflexivity|].
    cbn [option_map]. rewrite (Hk c s Ec). reflexivity.
  - reflexivity.
Qed.

(** The separator and the content. *)
Lemma match_separator_content (s : str) :
  matchAtoms [One isWhitespace; Many isDot] s
  = match s with
    | sep :: rest =>
        if isWhitespace sep && forallb isDot rest then Some [[sep]; rest] else None
    | [] => None
    end.
Proof.
  destruct s as [|sep rest]; [reflexivity|].
  change (matchAtoms [One isWhitespace; Many isDot] (sep :: rest))
    with (if isWhitespace sep
          then option_map (cons [sep])
                 (option_map (fun mr => fst mr :: snd mr)
                    (greedy isDot (matchAtoms []) rest))
          else None).
  rewrite greedy_dot_end.
  destruct (isWhitespace sep); [|reflexivity].
  destruct (forallb isDot rest); reflexivity.
Qed.

(** The digits, the separator and the content. *)
Lemma match_digits_separator_content (s : str) :
  matchAtoms [Many isDigit; One isWhitespace; Many isDot] s
  = option_map (cons (leadingDigits s))
      (matchAtoms [One isWhitespace; Many isDot]
         (skipn (length (leadingDigits s)) s)).
Proof.
  change (matchAtoms [Many isDigit; One isWhitespace; Many isDot] s)
    with (option_map (fun mr => fst mr :: snd mr)
            (greedy isDigit (matchAtoms [One isWhitespace; Many isDot]) s)).
  rewrite greedy_digits.
  - destruct (matchAtoms [One isWhitespace; Many isDot] _); reflexivity.
  - intros c s' Hc. rewrite match_separator_content.
    destruct (isWhitespace c) eqn:Ew; [|reflexivity].
    rewrite (whitespace_not_digit c Ew) in Hc. discriminate.
Qed.

Lemma leadingDigits_whitespace (c : char) (s : str) :
  isWhitespace c = true -> leadingDigits (c :: s) = [].
Proof. intros H. cbn. rewrite (whitespace_not_digit c H). reflexivity. Qed.

(** The whitespace star in front of them: it takes its whole run when the rest
    matches, and otherwise gives back one character, which then is the
    separator; giving back more never helps. *)
Lemma greedy_whitespace_run (s : str) :
  greedy isWhitespace (matchAtoms [Many isDigit; One isWhitespace; Many isDot]) s
  = match matchAtoms [Many isDigit; One isWhitespace; Many isDot]
            (skipn (length (leadingWs s)) s) with
    | Some l => Some (leadingWs s, l)
    | None =>
        if truthy (leadingWs s) && forallb isDot (skipn (length (leadingWs s)) s)
        then Some (removelast (leadingWs s),
                   [[]; [last (leadingWs s) Chr.space]; skipn (length (leadingWs s)) s])
        else None
    end.
Proof.
  induction s as [|c s IH].
  - cbn [greedy leadingWs length skipn truthy andb].
    destruct (matchAtoms _ []); reflexivity.
  - cbn [greedy leadingWs]. destruct (isWhitespace c) eqn:Ec.
    + rewrite IH. cbn [length skipn].
      set (ws := leadingWs s). set (s1 := skipn (length ws) s).
      destruct (matchAtoms [Many isDigit; One isWhitespace; Many isDot] s1) as [l|] eqn:Em;
        [reflexivity|].
      cbn [truthy andb].
      destruct ws as [|w ws'] eqn:Ews.
      * cbn [truthy andb]. subst s1. cbn [length skipn] in *.
        rewrite match_digits_separator_content, (leadingDigits_whitespace c s Ec).
        cbn [length skipn]. rewrite match_separator_content, Ec. cbn [andb].
        destruct (forallb isDot s); reflexivity.
      * cbn [truthy andb].
        destruct (forallb isDot s1) eqn:Ed; [reflexivity|].
        rewrite match_digits_separator_content, (leadingDigits_whitespace c s Ec).
        cbn [length skipn]. rewrite match_separator_content, Ec. cbn [andb].
        assert (Hs : s = (w :: ws') ++ s1).
        { subst s1. rewrite <- Ews. unfold ws. symmetry. apply leadingWs_skipn. }
        rewrite Hs, forallb_app, Ed, andb_false_r. reflexivity.
    + cbn [length skipn truthy andb].
      destruct (matchAtoms _ (c :: s)); reflexivity.
Qed.

Lemma parseDiffLine_resolved (line : str) : parseDiffLine line = parseDirect line.
Proof.
  destruct line as [|c s]; [reflexivity|].
  unfold parseDiffLine, parseDirect.
  change (matchAtoms diffLineRe (c :: s))
    with (if isPrefixChar c
          then option_map (cons [c])
                 (option_map (fun mr => fst mr :: snd mr)
                    (greedy isWhitespace
                       (matchAtoms [Many isDigit; One isWhitespace; Many isDot]) s))
          else None).
  destruct (isPrefixChar c); [|reflexivity].
  rewrite greedy_whitespace_run, match_digits_separator_content, match_separator_content.
  set (ws := leadingWs s). set (s1 := skipn (length ws) s).
  set (ds := leadingDigits s1).
  destruct (skipn (length ds) s1) as [|sep rest].
  - cbn [option_map].
    destruct (truthy ws && forallb isDot s1); [|reflexivity].
    cbn [option_map fst snd]. rewrite app_nil_r. reflexivity.
  - destruct (isWhitespace sep && forallb isDot rest); [reflexivity|].
    cbn [option_map].
    destruct (truthy ws && forallb isDot s1); [|reflexivity].
    cbn [option_map fst snd]. rewrite app_nil_r. reflexivity.
Qed.

Lemma leadingWs_app (m r : str) :
  forallb isWhitespace m = true ->
  match r with [] => True | x :: _ => isWhitespace x = false end ->
  leadingWs (m ++ r) = m.
Proof.
  intros Hm Hr. induction m as [|c m IH]; cbn [app leadingWs].
  - destruct r as [|x r]; [reflexivity|]. cbn. rewrite Hr. reflexivity.
  - cbn [forallb] in Hm. apply andb_true_iff in Hm. destruct Hm as [Hc Hm].
    rewrite Hc, (IH Hm). reflexivity.
Qed.

Lemma leadingDigits_app (m r : str) :
  forallb isDigit m = true ->
  match r with [] => True | x :: _ => isDigit x = false end ->
  leadingDigits (m ++ r) = m.
Proof.
  intros Hm Hr. induction m as [|c m IH]; cbn [app leadingDigits].
  - destruct r as [|x r]; [reflexivity|]. cbn. rewrite Hr. reflexivity.
  - cbn [forallb] in Hm. apply andb_true_iff in Hm. destruct Hm as [Hc Hm].
    rewrite Hc, (IH Hm). reflexivity.
Qed.

Lemma skipn_length_app {A : Type} (m r : list A) : skipn (length m) (m ++ r) = r.
Proof. induction m as [|x m IH]; [reflexivity|exact IH]. Qed.

Lemma digit_not_whitespace (c : char) : isDigit c = true -> isWhitespace c = false.
Proof.
  intros Hd. destruct (isWhitespace c) eqn:Ew; [|reflexivity].
  rewrite (whitespace_not_digit c Ew) in Hd. discriminate.
Qed.

(** X1.  The backtracking pattern and its direct reading agree on every
    line: the matcher never needs more than one step back, into the
    whitespace run. *)
Theorem parseDiffLine_direct (line : str) : parseDiffLine line = parseDirect line.
Proof. apply parseDiffLine_resolved. Qed.

(** X2.  A line written as prefix character, padding, a line number of at
    least one digit, one whitespace character and a content without line
    terminators parses into exactly these pieces, whatever the content
    starts with. *)
Theorem parse_numbered_line (c sep : char) (ws ds rest : str) :
  isPrefixChar c = true ->
  forallb isWhitespace ws = true ->
  forallb isDigit ds = true -> ds <> [] ->
  isWhitespace sep = true -> forallb isDot rest = true ->
  parseDiffLine (c :: ws ++ ds ++ sep :: rest)
  = Some {| prefix := [c]; lineNum := ws ++ ds; content := rest |}.
Proof.
  intros Hc Hws Hds Hne Hsep Hrest.
  rewrite parseDiffLine_resolved. unfold parseDirect. rewrite Hc.
  assert (E1 : leadingWs (ws ++ ds ++ sep :: rest) = ws).
  { apply leadingWs_app; [exact Hws|].
    destruct ds as [|d ds]; [contradiction|]. cbn [app].
    cbn [forallb] in Hds. apply andb_true_iff in Hds.
    apply digit_not_whitespace, Hds. }
  rewrite E1, skipn_length_app.
  assert (E2 : leadingDigits (ds ++ sep :: rest) = ds).
  { apply leadingDigits_app; [exact Hds|]. apply whitespace_not_digit, Hsep. }
  rewrite E2, skipn_length_app, Hsep, Hrest. reflexivity.
Qed.

Lemma parse_numbered_line_witness :
  parseDiffLine (lit "+" ++ lit "  " ++ lit "42" ++ Chr.tab :: lit " 7 x")
  = Some {| prefix := lit "+"; lineNum := lit "  42"; content := lit " 7 x" |}.
Proof.
  apply (parse_numbered_line Chr.plus Chr.tab (lit "  ") (lit "42") (lit " 7 x"));
    try reflexivity.
  discriminate.
Defined.

(** X3.  A line without a line number: after the prefix character a run of
    whitespace whose last character is followed by a content that starts
    with neither whitespace nor a digit.  The last character of the run is
    the separator and the rest of the run is the line-number token. *)
Theorem parse_unnumbered_line (c sep : char) (ws rest : str) :
  isPrefixChar c = true ->
  forallb isWhitespace ws = true -> isWhitespace sep = true ->
  forallb isDot rest = true ->
  match rest with
  | [] => True
  | x :: _ => isWhitespace x = false /\ isDigit x = false
  end ->
  parseDiffLine (c :: ws ++ sep :: rest)
  = Some {| prefix := [c]; lineNum := ws; content := rest |}.
Proof.
  intros Hc Hws Hsep Hrest Hhead.
  rewrite parseDiffLine_resolved. unfold parseDirect. rewrite Hc.
  assert (E1 : leadingWs (ws ++ sep :: rest) = ws ++ [sep]).
  { change (sep :: rest) with ([sep] ++ rest). rewrite app_assoc.
    apply leadingWs_app.
    - rewrite forallb_app, Hws. cbn. rewrite Hsep. reflexivity.
    - destruct rest; [exact I|apply Hhead]. }
  rewrite E1.
  replace (ws ++ sep :: rest) with ((ws ++ [sep]) ++ rest)
    by (rewrite <- app_assoc; reflexivity).
  rewrite skipn_length_app, removelast_last.
  assert (E2 : leadingDigits rest = []).
  { destruct rest as [|x rest]; [reflexivity|]. cbn.
    destruct Hhead as [_ ->]. reflexivity. }
  rewrite E2. cbn [length skipn].
  assert (Et : truthy (ws ++ [sep]) = true) by (destruct ws; reflexivity).
  rewrite Et, Hrest. cbn [andb].
  destruct rest as [|x rest]; [reflexivity|].
  destruct Hhead as [-> _]. reflexivity.
Qed.

Lemma parse_unnumbered_line_witness :
  parseDiffLine (Chr.space :: lit "    " ++ Chr.space :: lit "...")
  = Some {| prefix := lit " "; lineNum := lit "    "; content := lit "..." |}.
Proof.
  apply (parse_unnumbered_line Chr.space Chr.space (lit "    ") (lit "..."));
    try reflexivity.
  split; reflexivity.
Defined.

Lemma app_split_outside {A : Type} (P : A -> Prop) (l1 r m c : list A) (x : A) :
  Forall P m -> ~ P x -> l1 ++ x :: r = m ++ c ->
  exists pre, c = pre ++ x :: r.
Proof.
  intros Hm Hx. revert l1. induction Hm as [|y m Hy Hm IH]; intros l1 E.
  - exists l1. symmetry. exact E.
  - destruct l1 as [|z l1]; cbn [app] in E.
    + injection E as -> _. contradiction.
    + injection E as _ E. exact (IH l1 E).
Qed.

(** X4.  What a successful parse says about the line: it is its prefix
    character, its line-number token, one whitespace character and its
    content, in this order; the token is whitespace followed by digits and
    the content holds no line terminator. *)
Theorem parsed_line_shape (line : str) (p : ParsedLine) :
  parseDiffLine line = Some p ->
  exists c ws ds sep,
    prefix p = [c]
    /\ (c = Chr.plus \/ c = Chr.minus \/ isWhitespace c = true)
    /\ lineNum p = ws ++ ds
    /\ forallb isWhitespace ws = true /\ forallb isDigit ds = true
    /\ isWhitespace sep = true
    /\ (forall x, In x (content p) -> isLineTerminator x = false)
    /\ line = prefix p ++ lineNum p ++ sep :: content p.
Proof.
  intros Hp.
  destruct (parseDiffLine_sound line p Hp)
    as (c & ws & ds & sep & Hpre & Hc & Hnum & Hws & Hds & Hsep & Hdot & Hline).
  exists c, ws, ds, sep.
  split; [exact Hpre|]. split.
  { unfold isPrefixChar in Hc. apply orb_true_iff in Hc. destruct Hc as [Hc|Hc].
    - apply orb_true_iff in Hc. destruct Hc as [Hc|Hc]; apply N.eqb_eq in Hc; auto.
    - auto. }
  split; [exact Hnum|]. split; [exact Hws|]. split; [exact Hds|].
  split; [exact Hsep|]. split.
  - intros x Hx. rewrite forallb_forall in Hdot.
    apply Hdot in Hx. unfold isDot in Hx. apply negb_true_iff in Hx. exact Hx.
  - rewrite Hpre. exact Hline.
Qed.

Lemma parsed_line_shape_witness :
  exists c ws ds sep,
    prefix (mkParsed (lit "-") (lit " 12") (lit "a b")) = [c]
    /\ (c = Chr.plus \/ c = Chr.minus \/ isWhitespace c = true)
    /\ lineNum (mkParsed (lit "-") (lit " 12") (lit "a b")) = ws ++ ds
    /\ forallb isWhitespace ws = true /\ forallb isDigit ds = true
    /\ isWhitespace sep = true
    /\ (forall x, In x (content (mkParsed (lit "-") (lit " 12") (lit "a b"))) ->
        isLineTerminator x = false)
    /\ lit "- 12 a b"
       = prefix (mkParsed (lit "-") (lit " 12") (lit "a b"))
         ++ lineNum (mkParsed (lit "-") (lit " 12") (lit "a b"))
         ++ sep :: content (mkParsed (lit "-") (lit " 12") (lit "a b")).
Proof.
  exact (parsed_line_shape (lit "- 12 a b")
           (mkParsed (lit "-") (lit " 12") (lit "a b")) eq_refl).
Defined.

(** X5.  A line terminator other than the line feed ends the reach of the
    pattern: a line that holds, after its first character, a character that
    is neither whitespace nor a digit and later on a line terminator does not
    parse, and so is a raw line.  A content that ends in a carriage return is
    the common case. *)
Theorem line_terminator_makes_raw (c x t : char) (mid between tail : str) :
  isWhitespace x = false -> isDigit x = false -> isLineTerminator t = true ->
  parseDiffLine (c :: mid ++ x :: between ++ t :: tail) = None.
Proof.
  intros Hxw Hxd Ht.
  destruct (parseDiffLine (c :: mid ++ x :: between ++ t :: tail)) as [p|] eqn:Hp;
    [exfalso|reflexivity].
  destruct (parseDiffLine_sound _ p Hp)
    as (c' & ws & ds & sep & _ & _ & Hnum & Hws & Hds & Hsep & Hdot & Hline).
  injection Hline as _ Hline.
  assert (Hm : Forall (fun y => isWhitespace y = true \/ isDigit y = true)
                 (lineNum p ++ [sep])).
  { rewrite Hnum. rewrite forallb_forall in Hws, Hds.
    apply Forall_forall. intros y Hy.
    apply in_app_or in Hy. destruct Hy as [Hy|[<-|[]]]; [|auto].
    apply in_app_or in Hy. destruct Hy as [Hy|Hy]; auto. }
  assert (Hx : ~ (isWhitespace x = true \/ isDigit x = true)).
  { intros [H|H]; congruence. }
  assert (E : mid ++ x :: (between ++ t :: tail) = (lineNum p ++ [sep]) ++ content p).
  { rewrite <- app_assoc. exact Hline. }
  destruct (app_split_outside _ _ _ _ _ _ Hm Hx E) as (pre & Hc).
  rewrite Hc in Hdot. rewrite forallb_app in Hdot.
  apply andb_true_iff in Hdot. destruct Hdot as [_ Hdot].
  cbn [forallb] in Hdot. apply andb_true_iff in Hdot. destruct Hdot as [_ Hdot].
  rewrite forallb_app in Hdot. apply andb_true_iff in Hdot. destruct Hdot as [_ Hdot].
  cbn [forallb] in Hdot. unfold isDot in Hdot. rewrite Ht in Hdot. discriminate.
Qed.

Lemma line_terminator_makes_raw_witness :
  parseDiffLine (Chr.plus :: lit "1 " ++ 102%N :: lit "oo" ++ Chr.cr :: []) = None.
Proof.
  apply (line_terminator_makes_raw Chr.plus 102%N Chr.cr (lit "1 ") (lit "oo") []);
    reflexivity.
Defined.

(** ** The loop seen from the lines that are left *)

Section FromTheCursorFacts.
Context {D : DiffLib} {T : Theme}.

Lemma renderBlock_from_empty (lang : option str) (removedLines addedLines : list Entry.t)
  (result : list out) :
  renderBlock lang removedLines addedLines result
  = result ++ renderBlock lang removedLines addedLines [].
Proof. rewrite !renderBlock_spec. reflexivity. Qed.

Lemma iteration_single_line (lang : option str) (lines : list str) (i : nat)
  (line : str) (result : list out) :
  hasSign minusSign line = false ->
  iteration lang lines i line result = (S i, result ++ [renderSingle lang line]).
Proof.
  intros Hs. unfold iteration, renderSingle. unfold hasSign in Hs.
  destruct (parseDiffLine line) as [p|]; [|reflexivity].
  rewrite Hs. destruct (str_eqb (prefix p) plusSign); reflexivity.
Qed.

Lemma iteration_stepFrom (lang : option str) (lines : list str) (i : nat)
  (line : str) (result : list out) :
  nth_error lines i = Some line ->
  iteration lang lines i line result
  = (i + fst (stepFrom lang (skipn i lines)),
     result ++ snd (stepFrom lang (skipn i lines))).
Proof.
  intros Hn. destruct (nth_error_skipn_head _ _ _ Hn) as (rest & Hrest).
  unfold stepFrom. rewrite Hrest.
  destruct (hasSign minusSign line) eqn:Hs.
  - rewrite (iteration_removed lang lines i line result Hn Hs).
    rewrite renderBlock_from_empty. rewrite <- Hrest. cbn [fst snd].
    rewrite !skipn_skipn.
    replace (runLength minusSign (skipn i lines) + i)
      with (i + runLength minusSign (skipn i lines)) by lia.
    f_equal. lia.
  - rewrite (iteration_single_line lang lines i line result Hs). cbn [fst snd].
    f_equal. lia.
Qed.

Lemma stepFrom_advance (lang : option str) (suffix : list str) :
  suffix <> [] ->
  1 <= fst (stepFrom lang suffix) <= length suffix.
Proof.
  intros Hne. destruct suffix as [|line rest]; [contradiction|].
  unfold stepFrom. destruct (hasSign minusSign line) eqn:Hs; cbn [fst].
  - assert (H1 := runLength_le minusSign (line :: rest)).
    assert (H2 := runLength_le plusSign
                    (skipn (runLength minusSign (line :: rest)) (line :: rest))).
    rewrite length_skipn in H2.
    assert (H3 : 1 <= runLength minusSign (line :: rest))
      by (cbn [runLength]; rewrite Hs; lia).
    lia.
  - cbn [length]. lia.
Qed.

Lemma renderLoop_renders (lang : option str) (lines : list str) (fuel i : nat)
  (result final : list out) :
  renderLoop lang lines fuel i result = Some final ->
  exists outs, final = result ++ outs /\ Renders lang (skipn i lines) outs.
Proof.
  revert i result. induction fuel as [|fuel IH]; intros i result; cbn [renderLoop].
  - destruct (nth_error lines i) eqn:Hn; [discriminate|].
    intros [= <-]. exists []. rewrite app_nil_r. split; [reflexivity|].
    apply nth_error_None in Hn. rewrite skipn_all2 by exact Hn. constructor.
  - destruct (nth_error lines i) as [line|] eqn:Hn.
    + rewrite (iteration_stepFrom lang lines i line result Hn).
      intros Hrun. destruct (IH _ _ Hrun) as (outs & -> & HR).
      exists (snd (stepFrom lang (skipn i lines)) ++ outs).
      split; [rewrite app_assoc; reflexivity|].
      constructor.
      * destruct (nth_error_skipn_head _ _ _ Hn) as (rest & ->). discriminate.
      * rewrite skipn_skipn.
        replace (fst (stepFrom lang (skipn i lines)) + i)
          with (i + fst (stepFrom lang (skipn i lines))) by lia.
        exact HR.
    + intros [= <-]. exists []. rewrite app_nil_r. split; [reflexivity|].
      apply nth_error_None in Hn. rewrite skipn_all2 by exact Hn. constructor.
Qed.

Lemma Renders_functional (lang : option str) (suffix : list str) (o1 o2 : list out) :
  Renders lang suffix o1 -> Renders lang suffix o2 -> o1 = o2.
Proof.
  intros H1. revert o2. induction H1 as [|suffix outs Hne H1 IH]; intros o2 H2.
  - inversion H2 as [|s o Hne' H']; [reflexivity|]. subst. contradiction.
  - inversion H2 as [E|s o Hne' H']; subst; [contradiction|].
    rewrite (IH _ H'). reflexivity.
Qed.

(** The renderer returns the rendering of its lines. *)
Lemma renderLines_renders (lang : option str) (lines : list str) :
  exists outs, renderLines lang lines = Some outs /\ Renders lang lines outs.
Proof.
  destruct (renderLines_pass lang lines) as (segs & final & Hrun & _).
  destruct (renderLoop_renders lang lines _ _ _ _ Hrun) as (outs & -> & HR).
  exists outs. split; [exact Hrun|exact HR].
Qed.

Lemma Renders_is_result (lang : option str) (lines : list str) (outs : list out) :
  Renders lang lines outs -> renderLines lang lines = Some outs.
Proof.
  intros HR. destruct (renderLines_renders lang lines) as (outs' & Hrun & HR').
  rewrite (Renders_functional lang lines outs outs' HR HR'). exact Hrun.
Qed.

End FromTheCursorFacts.

Lemma firstn_plus {A : Type} (l : list A) (n m : nat) :
  firstn (n + m) l = firstn n l ++ firstn m (skipn n l).
Proof.
  revert l. induction n as [|n IH]; intros l; [reflexivity|].
  destruct l as [|x l]; cbn [Nat.add firstn skipn app].
  - rewrite firstn_nil. reflexivity.
  - rewrite IH. reflexivity.
Qed.

Lemma visible_join (l : list out) :
  visible (join [Ch Chr.lf] l) = joinLines (map visible l).
Proof.
  induction l as [|x l IH]; [reflexivity|].
  cbn [join map joinLines]. destruct l as [|y l]; [reflexivity|].
  cbn [map] in *. rewrite !visible_app, IH. reflexivity.
Qed.

Section VisibleText.
Context {D : DiffLib} {T : Theme}.

Lemma Renders_cons_single (lang : option str) (line : str) (rest : list str)
  (outs : list out) :
  hasSign minusSign line = false ->
  Renders lang rest outs ->
  Renders lang (line :: rest) (renderSingle lang line :: outs).
Proof.
  intros Hs HR.
  assert (E : stepFrom lang (line :: rest) = (1, [renderSingle lang line])).
  { unfold stepFrom. rewrite Hs. reflexivity. }
  change (renderSingle lang line :: outs)
    with (snd (1, [renderSingle lang line]) ++ outs).
  rewrite <- E. constructor; [discriminate|]. rewrite E. exact HR.
Qed.

Lemma renderIntraLineDiff_visible (oldContent newContent : str) :
  inverseIsMarkup T -> diffKeepsTexts D ->
  visible (fst (renderIntraLineDiff oldContent newContent)) = oldContent
  /\ visible (snd (renderIntraLineDiff oldContent newContent)) = newContent.
Proof.
  intros HT HD. destruct (HD oldContent newContent) as [Hold Hnew].
  unfold renderIntraLineDiff, renderParts. cbn [fst snd]. split.
  - change (removedLine ?st) with (lineOf OldSide st).
    rewrite renderParts_visible by exact HT.
    rewrite <- oldText_side. exact Hold.
  - change (addedLine ?st) with (lineOf NewSide st).
    rewrite renderParts_visible by exact HT.
    rewrite <- newText_side. exact Hnew.
Qed.

Lemma visible_highlightLine (text : str) (lang : option str) :
  highlighterIsMarkup T -> visible (highlightLine text lang) = text.
Proof.
  intros HH. unfold highlightLine. destruct lang as [l|]; [|apply visible_plain].
  destruct (negb (truthy l)); [apply visible_plain|].
  destruct (highlightCode text l) as [|first rest] eqn:E; [apply visible_plain|].
  exact (HH _ _ _ _ E).
Qed.

Lemma visible_renderLine (color : ThemeColor) (sign : str) (lang : option str)
  (num text : str) :
  fgIsMarkup T -> highlighterIsMarkup T ->
  visible (renderLine color sign lang num text)
  = sign ++ num ++ [Chr.space] ++ replaceTabs text.
Proof.
  intros HF HH. unfold renderLine.
  rewrite !visible_app, HF, visible_plain, visible_highlightLine by exact HH.
  rewrite <- app_assoc. reflexivity.
Qed.

Lemma visible_renderSingle (lang : option str) (line : str) :
  fgIsMarkup T -> highlighterIsMarkup T ->
  hasSign minusSign line = false ->
  visible (renderSingle lang line) = normalizeLine line.
Proof.
  intros HF HH Hs. unfold renderSingle, normalizeLine. unfold hasSign in Hs.
  destruct (parseDiffLine line) as [p|].
  - rewrite Hs. destruct (str_eqb (prefix p) plusSign);
      apply visible_renderLine; assumption.
  - rewrite HF. apply visible_plain.
Qed.

Lemma normalizeLine_signed (sign : str) (line : str) :
  sign = minusSign \/ sign = plusSign ->
  hasSign sign line = true ->
  normalizeLine line
  = sign ++ Entry.lineNum (entryOf line) ++ [Chr.space]
    ++ replaceTabs (Entry.content (entryOf line)).
Proof.
  intros Hsign Hs. unfold normalizeLine, entryOf. unfold hasSign in Hs.
  destruct (parseDiffLine line) as [p|]; [|discriminate].
  destruct (str_eqb_spec (prefix p) sign) as [E|]; [|discriminate].
  rewrite E. cbn [Entry.lineNum Entry.content].
  destruct Hsign as [->| ->]; reflexivity.
Qed.

Lemma visible_block_lines (lang : option str) (removedRun addedRun : list str) :
  fgIsMarkup T -> highlighterIsMarkup T ->
  Forall (fun l => hasSign minusSign l = true) removedRun ->
  Forall (fun l => hasSign plusSign l = true) addedRun ->
  map visible (blockLines lang (map entryOf removedRun) (map entryOf addedRun))
  = map normalizeLine removedRun ++ map normalizeLine addedRun.
Proof.
  intros HF HH HR HA. unfold blockLines. rewrite map_app, !map_map. f_equal.
  - apply map_ext_in. intros l Hl. rewrite Forall_forall in HR.
    unfold removedBlockLine. rewrite visible_renderLine by assumption.
    symmetry. apply normalizeLine_signed; auto.
  - apply map_ext_in. intros l Hl. rewrite Forall_forall in HA.
    unfold addedBlockLine. rewrite visible_renderLine by assumption.
    symmetry. apply normalizeLine_signed; auto.
Qed.

Lemma visible_intra_lines (l1 l2 : str) :
  fgIsMarkup T -> inverseIsMarkup T -> diffKeepsTexts D ->
  hasSign minusSign l1 = true -> hasSign plusSign l2 = true ->
  map visible (intraLines (entryOf l1) (entryOf l2))
  = [normalizeLine l1; normalizeLine l2].
Proof.
  intros HF HI HD H1 H2. unfold intraLines.
  destruct (renderIntraLineDiff_visible
              (replaceTabs (Entry.content (entryOf l1)))
              (replaceTabs (Entry.content (entryOf l2))) HI HD) as [Er Ea].
  destruct (renderIntraLineDiff _ _) as [rl al]. cbn [fst snd] in Er, Ea.
  cbn [map]. rewrite !HF, !visible_app, !visible_plain, Er, Ea.
  rewrite (normalizeLine_signed minusSign l1) by auto.
  rewrite (normalizeLine_signed plusSign l2) by auto.
  rewrite <- !app_assoc. reflexivity.
Qed.

Lemma visible_stepFrom (lang : option str) (suffix : list str) :
  fgIsMarkup T -> inverseIsMarkup T -> highlighterIsMarkup T -> diffKeepsTexts D ->
  map visible (snd (stepFrom lang suffix))
  = map normalizeLine (firstn (fst (stepFrom lang suffix)) suffix).
Proof.
  intros HF HI HH HD. destruct suffix as [|line rest]; [reflexivity|].
  unfold stepFrom. destruct (hasSign minusSign line) eqn:Hs; cbn [fst snd].
  - set (suffix := line :: rest).
    set (r := runLength minusSign suffix).
    set (a := runLength plusSign (skipn r suffix)).
    assert (HR := runLength_all minusSign suffix). fold r in HR.
    assert (HA := runLength_all plusSign (skipn r suffix)). fold a in HA.
    assert (Lr : length (firstn r suffix) = r).
    { rewrite length_firstn. assert (H := runLength_le minusSign suffix). fold r in H. lia. }
    assert (La : length (firstn a (skipn r suffix)) = a).
    { rewrite length_firstn.
      assert (H := runLength_le plusSign (skipn r suffix)). fold a in H. lia. }
    rewrite firstn_plus, map_app, renderBlock_spec, !length_map, Lr, La. cbn [app].
    destruct (Nat.eqb_spec r 1) as [E1|E1]; cbn [andb].
    + destruct (Nat.eqb_spec a 1) as [E2|E2].
      * destruct (firstn r suffix) as [|l1 [|? ?]] eqn:ER;
          try (cbn [length] in Lr; lia).
        destruct (firstn a (skipn r suffix)) as [|l2 [|? ?]] eqn:EA;
          try (cbn [length] in La; lia).
        cbn [map nth]. inversion HR; subst. inversion HA; subst.
        apply visible_intra_lines; assumption.
      * apply visible_block_lines; assumption.
    + apply visible_block_lines; assumption.
  - cbn [firstn map]. rewrite visible_renderSingle by assumption. reflexivity.
Qed.

Lemma visible_Renders (lang : option str) (suffix : list str) (outs : list out) :
  fgIsMarkup T -> inverseIsMarkup T -> highlighterIsMarkup T -> diffKeepsTexts D ->
  Renders lang suffix outs -> map visible outs = map normalizeLine suffix.
Proof.
  intros HF HI HH HD HR. induction HR as [|suffix outs Hne HR IH]; [reflexivity|].
  rewrite map_app, IH, visible_stepFrom by assumption.
  rewrite <- map_app, firstn_skipn. reflexivity.
Qed.

End VisibleText.

(** X6.  Where no line is a removed line every line is rendered on its own:
    the result is the lines rendered one by one. *)
Theorem lines_without_removed (D : DiffLib) (T : Theme) (lang : option str)
  (lines : list str) :
  Forall (fun l => hasSign minusSign l = false) lines ->
  renderLines lang lines = Some (map (renderSingle lang) lines).
Proof.
  intros H. apply Renders_is_result.
  induction H as [|line rest Hl _ IH]; [constructor|].
  cbn [map]. apply Renders_cons_single; assumption.
Qed.

Lemma lines_without_removed_witness :
  @renderLines wholeDiff escTheme None [lit "@@ -1 +1 @@"; lit " 1 a"; lit "+2 b"]
  = Some (map (@renderSingle escTheme None) [lit "@@ -1 +1 @@"; lit " 1 a"; lit "+2 b"]).
Proof.
  apply (lines_without_removed wholeDiff escTheme None).
  repeat constructor.
Defined.

(** X7.  When the colour, the inversion and the highlighter only add markers
    and the parts of the word diff spell its two texts, removing the markers
    from the output leaves the input with every parsed line normalised:
    marker and separator as the renderer writes them, content after the tab
    substitution; raw lines are as they were. *)
Theorem visible_text_of_rendering (D : DiffLib) (T : Theme) (diffText : str)
  (options : RenderDiffOptions) :
  fgIsMarkup T -> inverseIsMarkup T -> highlighterIsMarkup T -> diffKeepsTexts D ->
  exists o, renderDiff diffText options = Some o
            /\ visible o = joinLines (map normalizeLine (split diffText)).
Proof.
  intros HF HI HH HD.
  destruct (renderLines_renders (resolveLang options) (split diffText))
    as (outs & Hrun & HR).
  exists (join [Ch Chr.lf] outs). split.
  - unfold renderDiff. rewrite Hrun. reflexivity.
  - rewrite visible_join.
    rewrite (visible_Renders _ _ _ HF HI HH HD HR). reflexivity.
Qed.

Lemma fg_esc_markup : fgIsMarkup escTheme.
Proof.
  intros color text. cbn [theme_fg escTheme visible].
  rewrite visible_app. simpl. apply app_nil_r.
Qed.

Lemma highlighter_esc_markup : highlighterIsMarkup escTheme.
Proof.
  intros content lang first rest. cbn [highlightCode escTheme].
  intros [= <- _]. apply visible_plain.
Qed.

Lemma wholeDiff_keeps_texts : diffKeepsTexts wholeDiff.
Proof.
  intros o n. cbn [diffWords wholeDiff]. unfold oldText, newText. cbn.
  rewrite !app_nil_r. split; reflexivity.
Qed.

Lemma visible_text_of_rendering_witness :
  exists o,
    @renderDiff wholeDiff escTheme
      (lit " 1 a" ++ Chr.lf :: lit "-2 x\ty" ++ Chr.lf :: lit "+2  z") noOptions = Some o
    /\ visible o
       = joinLines (map normalizeLine
                      (split (lit " 1 a" ++ Chr.lf :: lit "-2 x\ty" ++ Chr.lf :: lit "+2  z"))).
Proof.
  exact (visible_text_of_rendering wholeDiff escTheme
           (lit " 1 a" ++ Chr.lf :: lit "-2 x\ty" ++ Chr.lf :: lit "+2  z") noOptions
           fg_esc_markup escTheme_inverse_markup highlighter_esc_markup
           wholeDiff_keeps_texts).
Defined.

(** ** split and joinLines *)

Lemma split_nonempty (s : str) : split s <> [].
Proof.
  induction s as [|c s IH]; cbn [split]; [discriminate|].
  destruct (N.eqb c Chr.lf); [discriminate|].
  destruct (split s); discriminate.
Qed.

Lemma joinLines_split (s : str) : joinLines (split s) = s.
Proof.
  induction s as [|c s IH]; [reflexivity|].
  cbn [split]. destruct (N.eqb_spec c Chr.lf) as [->|Hc].
  - cbn [joinLines]. destruct (split s) as [|l ls] eqn:E.
    + exfalso. exact (split_nonempty s E).
    + cbn [app]. rewrite IH. reflexivity.
  - destruct (split s) as [|l ls] eqn:E.
    + exfalso. exact (split_nonempty s E).
    + cbn [joinLines] in *. destruct ls as [|l' ls].
      * rewrite IH. reflexivity.
      * cbn [app]. rewrite IH. reflexivity.
Qed.

Lemma split_app_lf (a b : str) : split (a ++ Chr.lf :: b) = split a ++ split b.
Proof.
  induction a as [|c a IH].
  - cbn [app split]. rewrite N.eqb_refl. 
    change (split []) with [@nil char]. reflexivity.
  - cbn [app]. cbn [split]. destruct (N.eqb c Chr.lf).
    + rewrite IH. reflexivity.
    + rewrite IH. destruct (split a) as [|l ls] eqn:E.
      * exfalso. exact (split_nonempty a E).
      * reflexivity.
Qed.

(** X8.  A text none of whose lines matches the line pattern comes back
    unchanged once the markers are removed, whatever the word diff and the
    highlighter, provided the colour only adds markers. *)
Theorem raw_text_round_trip (D : DiffLib) (T : Theme) (diffText : str)
  (options : RenderDiffOptions) :
  fgIsMarkup T ->
  Forall (fun l => parseDiffLine l = None) (split diffText) ->
  exists o, renderDiff diffText options = Some o /\ visible o = diffText.
Proof.
  intros HF Hraw.
  assert (Hrun : renderLines (resolveLang options) (split diffText)
                 = Some (map (renderSingle (resolveLang options)) (split diffText))).
  { apply Renders_is_result.
    induction Hraw as [|line rest Hl _ IH]; [constructor|].
    cbn [map]. apply Renders_cons_single; [|exact IH].
    unfold hasSign. rewrite Hl. reflexivity. }
  exists (join [Ch Chr.lf] (map (renderSingle (resolveLang options)) (split diffText))).
  split.
  - unfold renderDiff. rewrite Hrun. reflexivity.
  - rewrite visible_join, map_map.
    rewrite <- (joinLines_split diffText) at 2. f_equal.
    rewrite <- (map_id (split diffText)) at 2.
    apply map_ext_in. intros l Hl. rewrite Forall_forall in Hraw.
    unfold renderSingle. rewrite (Hraw l Hl), HF. apply visible_plain.
Qed.

Lemma raw_text_round_trip_witness :
  exists o,
    @renderDiff wholeDiff escTheme
      (lit "diff --git a/x b/x" ++ Chr.lf :: lit "@@ -1,2 +1,2 @@" ++ Chr.lf :: [])
      noOptions = Some o
    /\ visible o
       = lit "diff --git a/x b/x" ++ Chr.lf :: lit "@@ -1,2 +1,2 @@" ++ Chr.lf :: [].
Proof.
  apply (raw_text_round_trip wholeDiff escTheme _ noOptions fg_esc_markup).
  repeat constructor.
Defined.

(** ** Rendering in pieces *)

Lemma runLength_zero (sign : str) (lb : list str) :
  hasSign sign (hd [] lb) = false -> runLength sign lb = 0.
Proof. destruct lb as [|b lb]; [reflexivity|]. cbn. intros ->. reflexivity. Qed.

Lemma runLength_inside (sign : str) (y : list str) :
  y <> [] -> hasSign sign (last y []) = false -> runLength sign y < length y.
Proof.
  induction y as [|l y IH]; [contradiction|]. intros _ Hlast.
  cbn [runLength length]. destruct (hasSign sign l) eqn:E; [|lia].
  destruct y as [|l' y].
  - cbn in Hlast. congruence.
  - assert (H := IH ltac:(discriminate) Hlast). lia.
Qed.

Lemma runLength_app (sign : str) (y lb : list str) :
  runLength sign lb = 0 \/ runLength sign y < length y ->
  runLength sign (y ++ lb) = runLength sign y.
Proof.
  induction y as [|l y IH]; intros H.
  - destruct H as [H|H]; [exact H|cbn in H; lia].
  - cbn [app runLength length] in *. destruct (hasSign sign l); [|reflexivity].
    rewrite IH; [reflexivity|].
    destruct H as [H|H]; [left; exact H|right; lia].
Qed.

Lemma last_skipn {A : Type} (y : list A) (n : nat) (d : A) :
  n < length y -> last (skipn n y) d = last y d.
Proof.
  revert n. induction y as [|x y IH]; intros n Hn; [cbn in Hn; lia|].
  destruct n as [|n]; [reflexivity|].
  cbn [skipn]. cbn [length] in Hn. rewrite IH by lia.
  destruct y as [|x' y]; [cbn in Hn; lia|reflexivity].
Qed.

Lemma skipn_app_within {A : Type} (y lb : list A) (n : nat) :
  n <= length y -> skipn n (y ++ lb) = skipn n y ++ lb.
Proof.
  intros Hn. rewrite skipn_app.
  replace (n - length y) with 0 by lia. reflexivity.
Qed.

Lemma firstn_app_within {A : Type} (y lb : list A) (n : nat) :
  n <= length y -> firstn n (y ++ lb) = firstn n y.
Proof.
  intros Hn. rewrite firstn_app.
  replace (n - length y) with 0 by lia. cbn [firstn]. apply app_nil_r.
Qed.

Lemma cleanCut_runs (la lb y : list str) :
  cleanCut la lb -> y <> [] -> last y [] = last la [] ->
  runLength minusSign (y ++ lb) = runLength minusSign y
  /\ runLength plusSign (y ++ lb) = runLength plusSign y
  /\ (runLength minusSign y = length y -> runLength plusSign lb = 0).
Proof.
  intros [[Hm Hp]|[Hm Hp]] Hne Hlast.
  - split; [|split].
    + apply runLength_app. left. apply runLength_zero, Hm.
    + apply runLength_app. left. apply runLength_zero, Hp.
    + intros _. apply runLength_zero, Hp.
  - rewrite <- Hlast in Hm, Hp.
    assert (Hin := runLength_inside minusSign y Hne Hm).
    split; [|split].
    + apply runLength_app. right. exact Hin.
    + apply runLength_app. destruct Hp as [Hp|Hp].
      * right. apply runLength_inside; assumption.
      * left. apply runLength_zero, Hp.
    + intros E. lia.
Qed.

Section Pieces.
Context {D : DiffLib} {T : Theme}.

Lemma stepFrom_app (lang : option str) (la lb y : list str) :
  cleanCut la lb -> y <> [] -> last y [] = last la [] ->
  stepFrom lang (y ++ lb) = stepFrom lang y.
Proof.
  intros Hcut Hne Hlast.
  destruct (cleanCut_runs la lb y Hcut Hne Hlast) as (Em & _ & Hfull).
  destruct y as [|line rest]; [contradiction|].
  unfold stepFrom. cbn [app].
  destruct (hasSign minusSign line); [|reflexivity].
  change (line :: rest ++ lb) with ((line :: rest) ++ lb).
  set (y := line :: rest) in *.
  rewrite Em. set (r := runLength minusSign y) in *.
  assert (Hr : r <= length y) by apply runLength_le.
  rewrite (skipn_app_within y lb r Hr), (firstn_app_within y lb r Hr).
  assert (Ea : runLength plusSign (skipn r y ++ lb) = runLength plusSign (skipn r y)).
  { destruct (Nat.eq_dec r (length y)) as [E|E].
    - rewrite E, skipn_all. cbn [app runLength]. apply Hfull. exact E.
    - assert (Hy' : skipn r y <> []).
      { intros E'. apply (f_equal (@length _)) in E'.
        rewrite length_skipn in E'. change (length (@nil str)) with 0 in E'. lia. }
      assert (Hl' : last (skipn r y) [] = last la []).
      { rewrite last_skipn by lia. exact Hlast. }
      apply (cleanCut_runs la lb (skipn r y) Hcut Hy' Hl'). }
  rewrite Ea.
  rewrite (firstn_app_within (skipn r y) lb); [reflexivity|apply runLength_le].
Qed.

Lemma Renders_app (lang : option str) (la lb : list str) (rb : list out) :
  cleanCut la lb -> Renders lang lb rb ->
  forall y ra, Renders lang y ra -> (y = [] \/ last y [] = last la []) ->
               Renders lang (y ++ lb) (ra ++ rb).
Proof.
  intros Hcut Hb y ra Hy.
  induction Hy as [|y outs Hne Hy IH]; intros Hlast; [exact Hb|].
  destruct Hlast as [E|Hlast]; [contradiction|].
  assert (Es := stepFrom_app lang la lb y Hcut Hne Hlast).
  destruct (stepFrom_advance lang y Hne) as [H1 H2].
  rewrite <- app_assoc, <- Es. constructor.
  - destruct y; [contradiction|discriminate].
  - rewrite Es, skipn_app_within by exact H2. apply IH.
    destruct (Nat.eq_dec (fst (stepFrom lang y)) (length y)) as [E|E].
    + left. rewrite E. apply skipn_all.
    + right. rewrite last_skipn by lia. exact Hlast.
Qed.

Lemma renderLines_length (lang : option str) (lines : list str) (outs : list out) :
  renderLines lang lines = Some outs -> length outs = length lines.
Proof.
  intros Hrun. destruct (renderLines_pass lang lines) as (segs & final & Hrun' & HP).
  rewrite Hrun in Hrun'. injection Hrun' as <-.
  destruct (Pass_covers lang lines 0 [] segs outs HP) as (_ & _ & Hlen).
  rewrite Hlen. cbn [length]. lia.
Qed.

End Pieces.

Lemma join_app (sep : out) (ra rb : list out) :
  ra <> [] -> rb <> [] -> join sep (ra ++ rb) = join sep ra ++ sep ++ join sep rb.
Proof.
  intros Ha Hb. induction ra as [|x ra IH]; [contradiction|].
  destruct ra as [|y ra].
  - cbn [app join]. destruct rb as [|z rb]; [contradiction|reflexivity].
  - change ((x :: y :: ra) ++ rb) with (x :: (y :: ra) ++ rb).
    cbn [join]. cbn [app]. cbn [app] in IH. rewrite IH by discriminate.
    rewrite <- !app_assoc. reflexivity.
Qed.

(** X9.  A diff cut at a line feed where no block is separated renders as
    its two pieces, each rendered on its own, with a line feed between
    them. *)
Theorem render_in_pieces (D : DiffLib) (T : Theme) (a b : str)
  (options : RenderDiffOptions) :
  cleanCut (split a) (split b) ->
  exists oa ob,
    renderDiff a options = Some oa
    /\ renderDiff b options = Some ob
    /\ renderDiff (a ++ Chr.lf :: b) options = Some (oa ++ Ch Chr.lf :: ob).
Proof.
  intros Hcut. set (lang := resolveLang options).
  destruct (renderLines_renders lang (split a)) as (ra & Ha & HRa).
  destruct (renderLines_renders lang (split b)) as (rb & Hb & HRb).
  assert (Hab := Renders_app lang (split a) (split b) rb Hcut HRb
                   (split a) ra HRa (or_intror eq_refl)).
  apply Renders_is_result in Hab.
  exists (join [Ch Chr.lf] ra), (join [Ch Chr.lf] rb).
  unfold renderDiff. fold lang. rewrite Ha, Hb, split_app_lf, Hab. cbn [option_map].
  split; [reflexivity|]. split; [reflexivity|].
  rewrite join_app; [reflexivity| |].
  - intros E. apply renderLines_length in Ha. rewrite E in Ha.
    apply (split_nonempty a). destruct (split a); [reflexivity|discriminate].
  - intros E. apply renderLines_length in Hb. rewrite E in Hb.
    apply (split_nonempty b). destruct (split b); [reflexivity|discriminate].
Qed.

Lemma render_in_pieces_witness :
  exists oa ob,
    @renderDiff wholeDiff escTheme (lit "-1 a" ++ Chr.lf :: lit "+1 b") noOptions = Some oa
    /\ @renderDiff wholeDiff escTheme (lit " 2 c" ++ Chr.lf :: lit "-3 d") noOptions = Some ob
    /\ @renderDiff wholeDiff escTheme
         ((lit "-1 a" ++ Chr.lf :: lit "+1 b") ++ Chr.lf :: lit " 2 c" ++ Chr.lf :: lit "-3 d")
         noOptions
       = Some (oa ++ Ch Chr.lf :: ob).
Proof.
  apply (render_in_pieces wholeDiff escTheme
           (lit "-1 a" ++ Chr.lf :: lit "+1 b") (lit " 2 c" ++ Chr.lf :: lit "-3 d")
           noOptions).
  left. split; reflexivity.
Defined.

(** ** One collaborator per mode *)

Lemma renderParts_same_inverse (T1 T2 : Theme) (parts : list Change) (st : IntraState) :
  (forall t, @theme_inverse T1 t = @theme_inverse T2 t) ->
  fold_left (@intraStep T1) parts st = fold_left (@intraStep T2) parts st.
Proof.
  intros Hinv. revert st. induction parts as [|p parts IH]; intros st; [reflexivity|].
  cbn [fold_left]. rewrite IH. f_equal.
  unfold intraStep, appendChanged.
  destruct (removed p), (added p), (isFirstRemoved st), (isFirstAdded st);
    repeat match goal with
           | |- context [truthy ?v] => destruct (truthy v)
           end; rewrite ?Hinv; reflexivity.
Qed.

(** X10.  Each mode uses one collaborator only.  The two lines of a
    one-removed-one-added block are the same under every language and every
    highlighter, and the lines of any other block are the same under every
    word diff. *)
Theorem one_collaborator_per_mode :
  (forall (D : DiffLib) (T1 T2 : Theme) (lang1 lang2 : option str)
          (removed added : Entry.t) (result : list out),
      (forall c t, @theme_fg T1 c t = @theme_fg T2 c t) ->
      (forall t, @theme_inverse T1 t = @theme_inverse T2 t) ->
      @renderBlock D T1 lang1 [removed] [added] result
      = @renderBlock D T2 lang2 [removed] [added] result)
  /\ (forall (D1 D2 : DiffLib) (T : Theme) (lang : option str)
             (removedLines addedLines : list Entry.t) (result : list out),
        ~ (length removedLines = 1 /\ length addedLines = 1) ->
        @renderBlock D1 T lang removedLines addedLines result
        = @renderBlock D2 T lang removedLines addedLines result).
Proof.
  split.
  - intros D T1 T2 lang1 lang2 removed added result Hfg Hinv.
    unfold renderBlock. cbn [length Nat.eqb andb nth].
    unfold renderIntraLineDiff, renderParts.
    rewrite (renderParts_same_inverse T1 T2 _ _ Hinv), !Hfg. reflexivity.
  - intros D1 D2 T lang removedLines addedLines result Hnot.
    unfold renderBlock.
    destruct (Nat.eqb_spec (length removedLines) 1) as [E1|E1]; cbn [andb];
      [|reflexivity].
    destruct (Nat.eqb_spec (length addedLines) 1) as [E2|E2]; [|reflexivity].
    exfalso. apply Hnot. split; assumption.
Qed.

Lemma one_collaborator_per_mode_witness :
  @renderBlock wholeDiff escTheme None
    [Entry.mk (lit "1") (lit "a"); Entry.mk (lit "2") (lit "b")] [] []
  = @renderBlock exampleDiff escTheme None
      [Entry.mk (lit "1") (lit "a"); Entry.mk (lit "2") (lit "b")] [] [].
Proof.
  apply (proj2 one_collaborator_per_mode wholeDiff exampleDiff escTheme None).
  cbn [length]. intros [E _]. discriminate.
Defined.

(** ** Lines without highlight *)

Section Unhighlighted.
Context {T : Theme}.

Lemma sharedText_plain (parts : list Change) :
  sharedText parts = plain (concat (map value (filter isUnchanged parts))).
Proof.
  unfold sharedText. induction parts as [|p parts IH]; [reflexivity|].
  cbn [map concat filter]. rewrite IH.
  destruct (isUnchanged p); [|reflexivity].
  cbn [map concat]. rewrite plain_app. reflexivity.
Qed.

Lemma fullText_shared (side : Side) (parts : list Change) :
  forallb (fun q => negb (onSide side q)) parts = true ->
  fullText side parts = sharedText parts.
Proof.
  unfold fullText, sharedText. induction parts as [|p parts IH]; [reflexivity|].
  cbn [forallb map concat]. intros H. apply andb_true_iff in H. destruct H as [Hp H].
  apply negb_true_iff in Hp. rewrite Hp, (IH H). reflexivity.
Qed.

Lemma filter_side_none (side : Side) (parts : list Change) :
  forallb (fun q => negb (onSide side q)) parts = true ->
  filter (fun p => isUnchanged p || onSide side p) parts = filter isUnchanged parts.
Proof.
  induction parts as [|p parts IH]; [reflexivity|].
  cbn [forallb filter]. intros H. apply andb_true_iff in H. destruct H as [Hp H].
  apply negb_true_iff in Hp. rewrite Hp, orb_false_r, (IH H). reflexivity.
Qed.

Lemma textOf_side (side : Side) (parts : list Change) :
  textOf side parts
  = concat (map value (filter (fun p => isUnchanged p || onSide side p) parts)).
Proof. destruct side; [apply oldText_side|apply newText_side]. Qed.

End Unhighlighted.

(** X11.  A side on which nothing differs, or on which the only differing
    part is whitespace, carries no marker at all: its line is the plain text
    of that side.  A change of indentation alone is not highlighted. *)
Theorem unhighlighted_side (T : Theme) (side : Side) :
  (forall parts,
      forallb (fun q => negb (onSide side q)) parts = true ->
      lineOf side (renderParts parts) = plain (textOf side parts))
  /\ (forall pre p post,
        forallb (fun q => negb (onSide side q)) pre = true ->
        forallb (fun q => negb (onSide side q)) post = true ->
        onSide side p = true ->
        forallb isWhitespace (value p) = true ->
        lineOf side (renderParts (pre ++ p :: post))
        = plain (textOf side (pre ++ p :: post))).
Proof.
  assert (Hinit : lineOf side intraInit = []) by (destruct side; reflexivity).
  split.
  - intros parts Hnone.
    destruct (renderParts_before side parts intraInit Hnone) as [Hl _].
    unfold renderParts. rewrite Hl, Hinit. cbn [app].
    rewrite sharedText_plain, textOf_side, filter_side_none by exact Hnone.
    reflexivity.
  - intros pre p post Hpre Hpost Hp Hws.
    assert (Hu := onSide_not_unchanged side p Hp).
    destruct (renderParts_before side pre intraInit Hpre) as [Hl0 Hf0].
    assert (Hflag : flagOf side intraInit = true) by (destruct side; reflexivity).
    rewrite Hflag in Hf0. rewrite Hinit in Hl0. cbn [app] in Hl0.
    destruct (intraStep_side side (fold_left intraStep pre intraInit) p) as [Hl1 Hf1].
    rewrite Hu, Hp, Hf0, Hl0, appendChanged_first in Hl1. cbn [fst] in Hl1.
    rewrite Hp in Hf1.
    destruct (renderParts_later side post _ Hf1) as [Hl2 _].
    destruct (skipn_leadingWs_all (value p) Hws) as [E1 E2].
    unfold renderParts. rewrite fold_left_app. cbn [fold_left].
    rewrite Hl2, Hl1, E2, E1. unfold highlighted at 1. cbn [truthy].
    rewrite app_nil_r, fullText_shared by exact Hpost.
    rewrite !sharedText_plain, <- !plain_app. f_equal.
    rewrite textOf_side, filter_app, map_app, concat_app. cbn [filter].
    rewrite Hp, orb_true_r. cbn [map concat].
    rewrite !filter_side_none by assumption.
    rewrite <- app_assoc. reflexivity.
Qed.

Lemma unhighlighted_side_witness :
  lineOf NewSide
    (@renderParts escTheme
       ([mkChange (lit "if") false false]
        ++ mkChange (lit "    ") true false
        :: [mkChange (lit " ") false true; mkChange (lit "x") false false]))
  = plain (lit "if    x").
Proof.
  refine (eq_trans
    (proj2 (unhighlighted_side escTheme NewSide)
       [mkChange (lit "if") false false]
       (mkChange (lit "    ") true false)
       [mkChange (lit " ") false true; mkChange (lit "x") false false]
       eq_refl eq_refl eq_refl eq_refl) _).
  reflexivity.
Defined.

Lemma renderParts_side_only (T : Theme) (side : Side) (parts : list Change)
  (st st' : IntraState) :
  lineOf side st = lineOf side st' -> flagOf side st = flagOf side st' ->
  lineOf side (fold_left intraStep parts st)
  = lineOf side
      (fold_left intraStep (filter (fun p => isUnchanged p || onSide side p) parts) st').
Proof.
  revert st st'. induction parts as [|p parts IH]; intros st st' Hl Hf; [exact Hl|].
  cbn [fold_left filter].
  destruct (intraStep_side side st p) as [Hl1 Hf1].
  destruct (intraStep_side side st' p) as [Hl2 Hf2].
  destruct (isUnchanged p) eqn:Eu; cbn [orb].
  - cbn [fold_left]. apply IH.
    + rewrite Hl1, Hl2, Hl. reflexivity.
    + rewrite Hf1, Hf2, Hf. reflexivity.
  - destruct (onSide side p) eqn:Es.
    + cbn [fold_left]. apply IH.
      * rewrite Hl1, Hl2, Hl, Hf. reflexivity.
      * rewrite Hf1, Hf2. reflexivity.
    + apply IH.
      * rewrite Hl1. exact Hl.
      * rewrite Hf1. exact Hf.
Qed.

(** X12.  The two lines are built apart: the parts that belong to the other
    side alone never reach a line, not even through the whitespace rule.
    The removed line is the one of the diff without its added parts, and the
    added line the one of the diff without its removed parts. *)
Theorem sides_are_independent (T : Theme) (side : Side) (parts : list Change) :
  lineOf side (renderParts parts)
  = lineOf side
      (renderParts (filter (fun p => isUnchanged p || onSide side p) parts)).
Proof. unfold renderParts. apply renderParts_side_only; reflexivity. Qed.

(** ** More on replaceTabs *)

Lemma countTabEscapes_unfold (x y : char) (s : str) :
  countTabEscapes (x :: y :: s)
  = (if (N.eqb x Chr.backslash && N.eqb y Chr.t)%bool then 1 else 0)
    + countTabEscapes (y :: s).
Proof. reflexivity. Qed.

Lemma countTabEscapes_t (s : str) :
  countTabEscapes (Chr.t :: s) = countTabEscapes s.
Proof. destruct s as [|y s]; reflexivity. Qed.

Lemma replaceTabs_length_count (s : str) :
  length (replaceTabs s) = length s + countTabEscapes s.
Proof.
  remember (length s) as n eqn:Hn. revert s Hn.
  induction n as [n IH] using lt_wf_ind. intros s Hn.
  destruct s as [|x [|y s]]; [subst; reflexivity|subst; reflexivity|].
  rewrite replaceTabs_unfold, countTabEscapes_unfold.
  destruct (N.eqb x Chr.backslash && N.eqb y Chr.t) eqn:E.
  - apply andb_true_iff in E. destruct E as [_ Ey]. apply N.eqb_eq in Ey. subst y.
    rewrite countTabEscapes_t. cbn [length].
    rewrite (IH (length s) ltac:(subst; cbn [length]; lia) s eq_refl).
    subst n. cbn [length]. lia.
  - cbn [length].
    rewrite (IH (length (y :: s)) ltac:(subst; cbn [length]; lia) (y :: s) eq_refl).
    subst n. cbn [length]. lia.
Qed.

Lemma replaceTabs_app_clean (a b : str) :
  last a 0%N <> Chr.backslash \/ hd 0%N b <> Chr.t ->
  replaceTabs (a ++ b) = replaceTabs a ++ replaceTabs b.
Proof.
  remember (length a) as n eqn:Hn. revert a Hn.
  induction n as [n IH] using lt_wf_ind. intros a Hn Hcut.
  destruct a as [|x [|y a]].
  - reflexivity.
  - cbn [app]. destruct b as [|z b]; [reflexivity|].
    rewrite replaceTabs_unfold.
    destruct (N.eqb_spec x Chr.backslash) as [Ex|Ex]; [|reflexivity].
    destruct (N.eqb_spec z Chr.t) as [Ez|Ez]; [|reflexivity].
    exfalso. destruct Hcut as [H|H]; cbn in H; congruence.
  - change ((x :: y :: a) ++ b) with (x :: y :: (a ++ b)).
    rewrite !replaceTabs_unfold.
    destruct (N.eqb x Chr.backslash && N.eqb y Chr.t).
    + destruct a as [|z a]; [reflexivity|].
      rewrite (IH (length (z :: a)) ltac:(subst; cbn [length]; lia) (z :: a) eq_refl).
      * reflexivity.
      * destruct Hcut as [H|H]; [left; exact H|right; exact H].
    + change (y :: a ++ b) with ((y :: a) ++ b).
      rewrite (IH (length (y :: a)) ltac:(subst; cbn [length]; lia) (y :: a) eq_refl).
      * reflexivity.
      * destruct Hcut as [H|H]; [left; exact H|right; exact H].
Qed.

(** X13.  The substitution changes a text exactly when the text holds a tab
    escape, and applying it twice is applying it once. *)
Theorem replaceTabs_fixed_points (s : str) :
  (replaceTabs s = s <-> ~ exists a b, s = a ++ tabEscape ++ b)
  /\ replaceTabs (replaceTabs s) = replaceTabs s.
Proof.
  split; [|apply replaceTabs_idem]. split.
  - intros E Hocc. apply hasTabEscape_occurs in Hocc.
    rewrite <- E, replaceTabs_no_escape in Hocc. discriminate.
  - intros Hnone. apply replaceTabs_id.
    destruct (hasTabEscape s) eqn:E; [|reflexivity].
    exfalso. apply Hnone, hasTabEscape_occurs, E.
Qed.

(** X14.  Every tab escape makes the text one character longer, and nothing
    else changes its length. *)
Theorem replaceTabs_length (s : str) :
  length (replaceTabs s) = length s + countTabEscapes s
  /\ (forall a b,
        countTabEscapes (a ++ tabEscape ++ b)
        = countTabEscapes a + 1 + countTabEscapes b).
Proof.
  split; [apply replaceTabs_length_count|].
  intros a b.
  assert (H := replaceTabs_length_count (a ++ tabEscape ++ b)).
  rewrite replaceTabs_app_escape in H.
  rewrite !length_app in H. cbn [length tabEscape] in H.
  assert (Ha := replaceTabs_length_count a).
  assert (Hb := replaceTabs_length_count b).
  lia.
Qed.

(** X15.  The substitution goes through a concatenation unless the cut runs
    through a tab escape, the backslash on one side and the letter t on the
    other. *)
Theorem replaceTabs_concat (a b : str) :
  last a 0%N <> Chr.backslash \/ hd 0%N b <> Chr.t ->
  replaceTabs (a ++ b) = replaceTabs a ++ replaceTabs b.
Proof. apply replaceTabs_app_clean. Qed.

Lemma replaceTabs_concat_witness :
  replaceTabs ((lit "a\tb" ++ [Chr.backslash]) ++ lit "x\t")
  = replaceTabs (lit "a\tb" ++ [Chr.backslash]) ++ replaceTabs (lit "x\t").
Proof.
  apply (replaceTabs_concat (lit "a\tb" ++ [Chr.backslash]) (lit "x\t")).
  right. discriminate.
Defined.

(** ** A path or a language that is the empty string *)

Section Falsy.
Context {D : DiffLib} {T : Theme}.

Lemma renderLine_empty_lang (color : ThemeColor) (sign num text : str) :
  renderLine color sign (Some []) num text = renderLine color sign None num text.
Proof. reflexivity. Qed.

Lemma renderBlock_empty_lang (removedLines addedLines : list Entry.t)
  (result : list out) :
  renderBlock (Some []) removedLines addedLines result
  = renderBlock None removedLines addedLines result.
Proof. rewrite !renderBlock_spec. reflexivity. Qed.

Lemma iteration_empty_lang (lines : list str) (i : nat) (line : str)
  (result : list out) :
  iteration (Some []) lines i line result = iteration None lines i line result.
Proof.
  unfold iteration. destruct (parseDiffLine line) as [p|]; [|reflexivity].
  destruct (str_eqb (prefix p) minusSign).
  - destruct (collectRun minusSign (skipn i lines) i []) as [i1 removedLines].
    destruct (collectRun plusSign (skipn i1 lines) i1 []) as [i2 addedLines].
    rewrite renderBlock_empty_lang. reflexivity.
  - reflexivity.
Qed.

Lemma renderLoop_empty_lang (lines : list str) (fuel i : nat) (result : list out) :
  renderLoop (Some []) lines fuel i result = renderLoop None lines fuel i result.
Proof.
  revert i result. induction fuel as [|fuel IH]; intros i result; cbn [renderLoop].
  - reflexivity.
  - destruct (nth_error lines i) as [line|]; [|reflexivity].
    rewrite iteration_empty_lang.
    destruct (iteration None lines i line result) as [i' result'].
    apply IH.
Qed.

End Falsy.

(** X16.  An empty string counts as absent: with a file path that is the
    empty string the resolver is not asked, with a language that is the empty
    string the highlighter is not asked, and either way the output is the one
    without a file path. *)
Theorem empty_path_or_language (D : DiffLib) (T : Theme) (diffText : str)
  (options : RenderDiffOptions) :
  filePath options = Some [] \/ resolveLang options = Some [] ->
  renderDiff diffText options = renderDiff diffText noOptions.
Proof.
  intros H. unfold renderDiff.
  assert (E : resolveLang options = None \/ resolveLang options = Some []).
  { destruct H as [H|H]; [left|right; exact H].
    unfold resolveLang. rewrite H. reflexivity. }
  change (resolveLang noOptions) with (@None str).
  destruct E as [-> | ->]; [reflexivity|].
  unfold renderLines. rewrite renderLoop_empty_lang. reflexivity.
Qed.

Lemma empty_path_or_language_witness :
  @renderDiff wholeDiff escTheme (lit "+1 a") (mkOptions (Some []))
  = @renderDiff wholeDiff escTheme (lit "+1 a") noOptions.
Proof.
  apply (empty_path_or_language wholeDiff escTheme (lit "+1 a") (mkOptions (Some []))).
  left. reflexivity.
Defined.

Lemma replaceTabs_fixed_points_witness :
  replaceTabs (lit "a\b    c") = lit "a\b    c".
Proof.
  apply (proj2 (proj1 (replaceTabs_fixed_points (lit "a\b    c")))).
  intros (a & b & E). apply (f_equal hasTabEscape) in E.
  assert (H : hasTabEscape (a ++ tabEscape ++ b) = true)
    by (apply hasTabEscape_occurs; eauto).
  rewrite H in E. discriminate.
Defined.

(** ** The module cache *)

Section ModuleCacheFacts.
Variables (Promise World : Type).

Lemma mapGet_set_same (key : str) (v : Promise) (m : list (str * Promise)) :
  mapGet key (mapSet key v m) = Some v.
Proof.
  induction m as [|[k x] m IH]; cbn [mapSet mapGet].
  - rewrite str_eqb_refl. reflexivity.
  - destruct (str_eqb k key) eqn:E; cbn [mapGet]; rewrite E; [reflexivity|exact IH].
Qed.

Lemma mapGet_set_other (key key' : str) (v : Promise) (m : list (str * Promise)) :
  key' <> key -> mapGet key (mapSet key' v m) = mapGet key m.
Proof.
  intros Hne. induction m as [|[k x] m IH]; cbn [mapSet mapGet].
  - destruct (str_eqb_spec key' key); [contradiction|reflexivity].
  - destruct (str_eqb_spec k key') as [->|Hk]; cbn [mapGet].
    + destruct (str_eqb_spec key' key); [contradiction|reflexivity].
    + rewrite IH. reflexivity.
Qed.

Lemma perform_keeps (key : str) (cached : Promise) (st : LoaderState Promise World)
  (a : Activity Promise World) :
  mapGet key (moduleCache st) = Some cached ->
  mapGet key (moduleCache (perform st a)) = Some cached.
Proof.
  intros H. destruct a as [k loader|act]; [|exact H].
  cbn [perform]. unfold lazyStreamModule.
  destruct (mapGet k (moduleCache st)) as [m|] eqn:E; [exact H|].
  destruct (loader (world st)) as [m w]. cbn [snd moduleCache].
  rewrite mapGet_set_other; [exact H|]. intros ->. congruence.
Qed.

Lemma performAll_keeps (key : str) (cached : Promise)
  (activities : list (Activity Promise World)) (st : LoaderState Promise World) :
  mapGet key (moduleCache st) = Some cached ->
  mapGet key (moduleCache (fold_left (@perform Promise World) activities st)) = Some cached.
Proof.
  revert st. induction activities as [|a activities IH]; intros st H; [exact H|].
  cbn [fold_left]. apply IH, perform_keeps, H.
Qed.

End ModuleCacheFacts.

(** X17.  A module is loaded at most once.  Whatever the state, once a key
    was requested every later request for it, after any other requests and
    anything else that happened, returns the promise of the first request,
    runs no loader and leaves the state as it is; this holds for a promise
    that is later rejected as for any other. *)
Theorem module_loaded_once (Promise World : Type) (moduleKey : str)
  (loader loader' : World -> Promise * World) (st : LoaderState Promise World)
  (activities : list (Activity Promise World)) :
  lazyStreamModule moduleKey loader'
    (fold_left (@perform Promise World) activities
       (snd (lazyStreamModule moduleKey loader st)))
  = (fst (lazyStreamModule moduleKey loader st),
     fold_left (@perform Promise World) activities
       (snd (lazyStreamModule moduleKey loader st))).
Proof.
  assert (H : mapGet moduleKey
                (moduleCache (snd (lazyStreamModule moduleKey loader st)))
              = Some (fst (lazyStreamModule moduleKey loader st))).
  { unfold lazyStreamModule.
    destruct (mapGet moduleKey (moduleCache st)) as [m|] eqn:E; [exact E|].
    destruct (loader (world st)) as [m w]. cbn [fst snd moduleCache].
    apply mapGet_set_same. }
  apply (performAll_keeps _ _ _ _ activities) in H.
  unfold lazyStreamModule at 1. rewrite H. reflexivity.
Qed.

(** ** Lines that are neither removed nor added *)

Section LinesOnTheirOwn.
Context {D : DiffLib} {T : Theme}.

Lemma stepFrom_length (lang : option str) (suffix : list str) :
  length (snd (stepFrom lang suffix)) = fst (stepFrom lang suffix).
Proof.
  destruct suffix as [|line rest]; [reflexivity|].
  unfold stepFrom. destruct (hasSign minusSign line); [|reflexivity].
  cbn [fst snd]. rewrite renderBlock_length, !length_map, !length_firstn.
  assert (H1 := runLength_le minusSign (line :: rest)).
  assert (H2 := runLength_le plusSign
                  (skipn (runLength minusSign (line :: rest)) (line :: rest))).
  cbn [length] in *. lia.
Qed.

(** The lines an iteration at a removed line moves over are removed or
    added lines. *)
Lemma block_lines_signed (suffix : list str) (j : nat) (line : str) :
  j < runLength minusSign suffix
      + runLength plusSign (skipn (runLength minusSign suffix) suffix) ->
  nth_error suffix j = Some line ->
  hasSign minusSign line = true \/ hasSign plusSign line = true.
Proof.
  intros Hj Hn.
  set (r := runLength minusSign suffix) in *.
  set (a := runLength plusSign (skipn r suffix)) in *.
  assert (Hf : nth_error (firstn (r + a) suffix) j = Some line).
  { rewrite nth_error_firstn. destruct (Nat.ltb_spec j (r + a)); [exact Hn|lia]. }
  apply nth_error_In in Hf. rewrite firstn_plus in Hf.
  apply in_app_or in Hf. destruct Hf as [Hf|Hf].
  - left. assert (H := runLength_all minusSign suffix). fold r in H.
    rewrite Forall_forall in H. exact (H line Hf).
  - right. assert (H := runLength_all plusSign (skipn r suffix)). fold a in H.
    rewrite Forall_forall in H. exact (H line Hf).
Qed.

(** In a rendering, a line that is neither removed nor added stands at the
    position of its input line and is that line rendered on its own. *)
Lemma Renders_own_line (lang : option str) (suffix : list str) (outs : list out) :
  Renders lang suffix outs ->
  forall j line,
    nth_error suffix j = Some line ->
    hasSign minusSign line = false -> hasSign plusSign line = false ->
    nth_error outs j = Some (renderSingle lang line).
Proof.
  induction 1 as [|suffix outs Hne HR IH]; intros j line Hn Hm Hp.
  - destruct j; discriminate.
  - assert (Hlen := stepFrom_length lang suffix).
    destruct (Nat.lt_ge_cases j (fst (stepFrom lang suffix))) as [Hj|Hj].
    + rewrite nth_error_app1 by lia.
      destruct suffix as [|head rest]; [contradiction|].
      unfold stepFrom in *. destruct (hasSign minusSign head) eqn:Hs.
      * cbn [fst] in Hj.
        destruct (block_lines_signed (head :: rest) j line Hj Hn); congruence.
      * cbn [fst snd] in *. destruct j as [|j]; [|lia].
        cbn [nth_error] in *. injection Hn as ->. reflexivity.
    + rewrite nth_error_app2 by lia. rewrite Hlen. apply IH; [|exact Hm|exact Hp].
      rewrite nth_error_skipn_add.
      replace (fst (stepFrom lang suffix) + (j - fst (stepFrom lang suffix))) with j by lia.
      exact Hn.
Qed.

(** The renderer returns the lines of its input rendered, as many as they
    are, and each line that is neither removed nor added at its place. *)
Lemma renderDiff_own_lines (diffText : str) (options : RenderDiffOptions) :
  exists result,
    renderLines (resolveLang options) (split diffText) = Some result
    /\ renderDiff diffText options = Some (join [Ch Chr.lf] result)
    /\ length result = length (split diffText)
    /\ (forall j line,
          nth_error (split diffText) j = Some line ->
          hasSign minusSign line = false -> hasSign plusSign line = false ->
          nth_error result j = Some (renderSingle (resolveLang options) line)).
Proof.
  destruct (renderLines_renders (resolveLang options) (split diffText))
    as (outs & Hrun & HR).
  exists outs. split; [exact Hrun|]. split; [|split].
  - unfold renderDiff. rewrite Hrun. reflexivity.
  - exact (renderLines_length _ _ _ Hrun).
  - exact (Renders_own_line _ _ _ HR).
Qed.

End LinesOnTheirOwn.

(** C6, as amended.  A line of the input that does not match the line
    pattern is no error: the renderer returns on every input, with as many
    lines as the input has, and at the place of every such line stands the
    line itself in the context colour with no character changed; the tab
    substitution is not applied to it. *)
Theorem raw_line_passthrough (D : DiffLib) (T : Theme) (diffText : str)
  (options : RenderDiffOptions) :
  exists result,
    renderLines (resolveLang options) (split diffText) = Some result
    /\ renderDiff diffText options = Some (join [Ch Chr.lf] result)
    /\ length result = length (split diffText)
    /\ (forall j line,
          nth_error (split diffText) j = Some line ->
          parseDiffLine line = None ->
          nth_error result j = Some (theme_fg toolDiffContext (plain line))).
Proof.
  destruct (renderDiff_own_lines diffText options) as (result & H1 & H2 & H3 & H4).
  exists result. split; [exact H1|]. split; [exact H2|]. split; [exact H3|].
  intros j line Hn Hp.
  assert (Hm : hasSign minusSign line = false) by (unfold hasSign; rewrite Hp; reflexivity).
  assert (Hpl : hasSign plusSign line = false) by (unfold hasSign; rewrite Hp; reflexivity).
  rewrite (H4 j line Hn Hm Hpl). unfold renderSingle. rewrite Hp. reflexivity.
Qed.

Lemma raw_line_passthrough_witness :
  exists result,
    @renderLines wholeDiff escTheme None
      (split (lit "-1 a" ++ Chr.lf :: lit "@@ hunk @@" ++ Chr.lf :: lit " 2 b"))
    = Some result
    /\ length result = 3
    /\ nth_error result 1
       = Some (Esc [90%N] :: plain (lit "@@ hunk @@") ++ [Esc [39%N]]).
Proof.
  destruct (raw_line_passthrough wholeDiff escTheme
              (lit "-1 a" ++ Chr.lf :: lit "@@ hunk @@" ++ Chr.lf :: lit " 2 b") noOptions)
    as (result & H1 & _ & H3 & H4).
  exists result. split; [exact H1|]. split; [exact H3|].
  exact (H4 1 (lit "@@ hunk @@") eq_refl eq_refl).
Defined.

(** C9, as amended.  The empty input is one empty line, which matches no
    pattern: the output is that empty line in the context colour, whatever
    the theme makes of an empty text.  It is the empty string exactly when
    the colour function gives the empty string for the empty text, and it
    has no visible character when the colour function only adds markers. *)
Theorem empty_input_output (D : DiffLib) (T : Theme) (options : RenderDiffOptions) :
  split [] = [[]]
  /\ renderDiff [] options = Some (theme_fg toolDiffContext (plain []))
  /\ (renderDiff [] options = Some [] <-> theme_fg toolDiffContext (plain []) = [])
  /\ (fgIsMarkup T ->
      exists o, renderDiff [] options = Some o /\ visible o = []).
Proof.
  assert (E : renderDiff [] options = Some (theme_fg toolDiffContext (plain [])))
    by reflexivity.
  split; [reflexivity|]. split; [exact E|]. split.
  - rewrite E. split; [intros [= H]; exact H|intros ->; reflexivity].
  - intros HF. exists (theme_fg toolDiffContext (plain [])).
    split; [exact E|]. rewrite HF. reflexivity.
Qed.

Lemma empty_input_output_witness :
  exists o, @renderDiff wholeDiff escTheme [] noOptions = Some o /\ visible o = [].
Proof.
  exact (proj2 (proj2 (proj2 (empty_input_output wholeDiff escTheme noOptions)))
           fg_esc_markup).
Defined.

(** C10, as amended.  The marker of a context line may be any whitespace
    character: a line made of a whitespace character, a run of whitespace, a
    run of digits, a space and a content without line terminators parses
    with that character as its prefix, and is neither a removed nor an added
    line.  And in the output of the renderer, at the place of every input
    line that parses with a whitespace prefix, stands one context line whose
    coloured prefix starts with a space, whichever the character was. *)
Theorem whitespace_marker_is_context (D : DiffLib) (T : Theme) (diffText : str)
  (options : RenderDiffOptions) :
  (forall (c : char) (ws ds rest : str),
      isWhitespace c = true ->
      forallb isWhitespace ws = true -> forallb isDigit ds = true ->
      forallb isDot rest = true ->
      exists p, parseDiffLine (c :: ws ++ ds ++ Chr.space :: rest) = Some p
                /\ prefix p = [c]
                /\ hasSign minusSign (c :: ws ++ ds ++ Chr.space :: rest) = false
                /\ hasSign plusSign (c :: ws ++ ds ++ Chr.space :: rest) = false)
  /\ (exists result,
        renderLines (resolveLang options) (split diffText) = Some result
        /\ renderDiff diffText options = Some (join [Ch Chr.lf] result)
        /\ length result = length (split diffText)
        /\ (forall j line p c,
              nth_error (split diffText) j = Some line ->
              parseDiffLine line = Some p -> prefix p = [c] ->
              isWhitespace c = true ->
              nth_error result j
              = Some (theme_fg toolDiffContext (plain (Chr.space :: lineNum p))
                      ++ [Ch Chr.space]
                      ++ highlightLine (replaceTabs (content p)) (resolveLang options)))).
Proof.
  split.
  - intros c ws ds rest Hc Hws Hds Hrest.
    assert (Hpc : isPrefixChar c = true).
    { unfold isPrefixChar. rewrite Hc, !orb_true_r. reflexivity. }
    destruct (parseDiffLine_complete c Chr.space ws ds rest Hpc Hws Hds eq_refl Hrest)
      as (p & Hp).
    destruct (parseDiffLine_sound _ _ Hp)
      as (c' & ws' & ds' & sep & Hpre & _ & _ & _ & _ & _ & _ & Hline).
    injection Hline as <- _.
    destruct (whitespace_not_sign c Hc) as [Hm Hpl].
    exists p. unfold hasSign. rewrite Hp, Hpre. auto.
  - destruct (renderDiff_own_lines diffText options) as (result & H1 & H2 & H3 & H4).
    exists result. split; [exact H1|]. split; [exact H2|]. split; [exact H3|].
    intros j line p c Hn Hp Hpre Hc.
    destruct (whitespace_not_sign c Hc) as [Hm Hpl].
    assert (Hsm : hasSign minusSign line = false)
      by (unfold hasSign; rewrite Hp, Hpre; exact Hm).
    assert (Hsp : hasSign plusSign line = false)
      by (unfold hasSign; rewrite Hp, Hpre; exact Hpl).
    rewrite (H4 j line Hn Hsm Hsp). unfold renderSingle. rewrite Hp, Hpre, Hpl.
    reflexivity.
Qed.

Lemma whitespace_marker_is_context_witness :
  (exists p, parseDiffLine (Chr.tab :: lit " " ++ lit "7" ++ Chr.space :: lit "x") = Some p
             /\ prefix p = [Chr.tab]
             /\ hasSign minusSign (Chr.tab :: lit " " ++ lit "7" ++ Chr.space :: lit "x") = false
             /\ hasSign plusSign (Chr.tab :: lit " " ++ lit "7" ++ Chr.space :: lit "x") = false)
  /\ (exists result,
        @renderLines wholeDiff escTheme None
          (split (lit "-1 a" ++ Chr.lf :: Chr.tab :: lit " 2 b")) = Some result
        /\ length result = 2
        /\ nth_error result 1
           = Some ([Esc [90%N]] ++ plain (lit "  2") ++ [Esc [39%N]] ++ plain (lit " b"))).
Proof.
  destruct (whitespace_marker_is_context wholeDiff escTheme
              (lit "-1 a" ++ Chr.lf :: Chr.tab :: lit " 2 b") noOptions)
    as (Hparse & result & H1 & _ & H3 & H4).
  split.
  - exact (Hparse Chr.tab (lit " ") (lit "7") (lit "x") eq_refl eq_refl eq_refl eq_refl).
  - exists result. split; [exact H1|]. split; [exact H3|].
    exact (H4 1 (Chr.tab :: lit " 2 b") (mkParsed [Chr.tab] (lit " 2") (lit "b")) Chr.tab
             eq_refl eq_refl eq_refl eq_refl).
Defined.

(** C10 as stated fails: a line of a tab, a space, a digit, a space and a
    content that ends in a carriage return does not parse, and is rendered
    as a raw line, tab and all. *)
Lemma whitespace_marker_carriage_return :
  isWhitespace Chr.tab = true
  /\ forallb isWhitespace (lit " ") = true /\ forallb isDigit (lit "7") = true
  /\ parseDiffLine (Chr.tab :: lit " " ++ lit "7" ++ Chr.space :: lit "x" ++ [Chr.cr])
     = None
  /\ ~ (exists p,
          parseDiffLine (Chr.tab :: lit " " ++ lit "7" ++ Chr.space :: lit "x" ++ [Chr.cr])
          = Some p)
  /\ @renderDiff wholeDiff escTheme
       (Chr.tab :: lit " " ++ lit "7" ++ Chr.space :: lit "x" ++ [Chr.cr]) noOptions
     = Some (Esc [90%N]
             :: plain (Chr.tab :: lit " " ++ lit "7" ++ Chr.space :: lit "x" ++ [Chr.cr])
             ++ [Esc [39%N]]).
Proof.
  repeat (split; [reflexivity|]). split; [|reflexivity].
  intros (p & H). vm_compute in H. discriminate.
Qed.
